(** * data: blob transfer commands and hash utilities

    A shallow embedding of [util.go] and [data_blob.go] of the [data]
    package, with the properties of the blob transfer engine stated and
    proved over it.

    Go values are represented as follows.
    - A Go [string] is a sequence of bytes: Rocq's [string], whose
      characters ([ascii]) are exactly the 256 byte values.  [len(s)] is
      [String.length s].
    - A [rune] is a [Z].
    - A Go [error] value is its message; the [nil] error is [None].
    - A [map[string]bool] is a [gmap string bool].
    - A run-time panic is the [Panic] outcome of [result]. *)

From Stdlib Require Import ZArith Lia Ascii String List Bool.
From stdpp Require Import base option list gmap strings.

Open Scope string_scope.
Open Scope Z_scope.

Set Warnings "-clear-no-such-hyp".

(** ** Go values *)

Definition rune := Z.

Definition error := string.

(** The value of a byte, [0 <= byte_val c < 256]. *)
Definition byte_val (c : ascii) : Z := Z.of_N (N_of_ascii c).

(** The bytes of a string, as [s[0], s[1], ...]. *)
Fixpoint bytes (s : string) : list Z :=
  match s with
  | EmptyString => []
  | String c s' => byte_val c :: bytes s'
  end.

(** Outcome of a Go expression or call that can panic. *)
Inductive result (A : Type) : Type :=
| Ret (a : A)
| Panic.
Arguments Ret {A} a.
Arguments Panic {A}.

(** ** [for _, r := range s]: UTF-8 decoding of a string

    The constants and [decoderune] follow Go's [runtime/utf8.go]; the
    [range] clause yields [s[k]] itself for a byte below [runeSelf] and
    the result of [decoderune] otherwise. *)

Module utf8.

Definition runeError : rune := 0xFFFD.
Definition runeSelf : Z := 0x80.
Definition maxRune : rune := 0x10FFFF.
Definition surrogateMin : rune := 0xD800.
Definition surrogateMax : rune := 0xDFFF.

Definition t2 : Z := 0xC0.
Definition t3 : Z := 0xE0.
Definition t4 : Z := 0xF0.
Definition t5 : Z := 0xF8.

Definition maskx : Z := 0x3F.
Definition mask2 : Z := 0x1F.
Definition mask3 : Z := 0x0F.
Definition mask4 : Z := 0x07.

Definition rune1Max : rune := 0x7F.
Definition rune2Max : rune := 0x7FF.
Definition rune3Max : rune := 0xFFFF.

Definition locb : Z := 0x80.
Definition hicb : Z := 0xBF.

Definition cont (b : Z) : bool := (locb <=? b) && (b <=? hicb).

(** [decoderune(s, 0)] on the bytes of [s]: the rune and the number of
    bytes it takes. *)
Definition decoderune (s : list Z) : rune * nat :=
  match s with
  | [] => (runeError, 1%nat)
  | s0 :: rest =>
    if (t2 <=? s0) && (s0 <? t3) then
      match rest with
      | s1 :: _ =>
        if cont s1 then
          let r := Z.lor (Z.shiftl (Z.land s0 mask2) 6) (Z.land s1 maskx) in
          if rune1Max <? r then (r, 2%nat) else (runeError, 1%nat)
        else (runeError, 1%nat)
      | _ => (runeError, 1%nat)
      end
    else if (t3 <=? s0) && (s0 <? t4) then
      match rest with
      | s1 :: s2 :: _ =>
        if cont s1 && cont s2 then
          let r := Z.lor (Z.lor (Z.shiftl (Z.land s0 mask3) 12)
                                (Z.shiftl (Z.land s1 maskx) 6))
                         (Z.land s2 maskx) in
          if (rune2Max <? r)
             && negb ((surrogateMin <=? r) && (r <=? surrogateMax))
          then (r, 3%nat) else (runeError, 1%nat)
        else (runeError, 1%nat)
      | _ => (runeError, 1%nat)
      end
    else if (t4 <=? s0) && (s0 <? t5) then
      match rest with
      | s1 :: s2 :: s3 :: _ =>
        if cont s1 && cont s2 && cont s3 then
          let r := Z.lor (Z.lor (Z.lor (Z.shiftl (Z.land s0 mask4) 18)
                                       (Z.shiftl (Z.land s1 maskx) 12))
                                (Z.shiftl (Z.land s2 maskx) 6))
                         (Z.land s3 maskx) in
          if (rune3Max <? r) && (r <=? maxRune)
          then (r, 4%nat) else (runeError, 1%nat)
        else (runeError, 1%nat)
      | _ => (runeError, 1%nat)
      end
    else (runeError, 1%nat)
  end.

(** One iteration step of [range]: the rune at the head of [s] and its
    width in bytes. *)
Definition next (s : list Z) : rune * nat :=
  match s with
  | [] => (runeError, 1%nat)
  | s0 :: _ => if s0 <? runeSelf then (s0, 1%nat) else decoderune s
  end.

(** The runes [range s] yields.  [skip] counts the bytes still covered
    by the rune decoded last. *)
Fixpoint range_from (skip : nat) (s : list Z) : list rune :=
  match s with
  | [] => []
  | _ :: s' =>
    match skip with
    | S k => range_from k s'
    | O => let '(r, size) := next s in r :: range_from (Nat.pred size) s'
    end
  end.

Definition range (s : string) : list rune := range_from 0 (bytes s).

End utf8.

(** ** [unicode.Is] and the [ASCII_Hex_Digit] table *)

Module unicode.

Record Range16 := { Lo : Z; Hi : Z; Stride : Z }.

(** [unicode.ASCII_Hex_Digit]: the ranges 0-9, A-F and a-f. *)
Definition ASCII_Hex_Digit : list Range16 :=
  [ {| Lo := 0x0030; Hi := 0x0039; Stride := 1 |};
    {| Lo := 0x0041; Hi := 0x0046; Stride := 1 |};
    {| Lo := 0x0061; Hi := 0x0066; Stride := 1 |} ].

(** Linear search of a sorted range table. *)
Fixpoint is16 (ranges : list Range16) (r : Z) : bool :=
  match ranges with
  | [] => false
  | range_ :: ranges' =>
    if r <? Lo range_ then false
    else if r <=? Hi range_
         then (Stride range_ =? 1) || ((r - Lo range_) mod Stride range_ =? 0)
         else is16 ranges' r
  end.

Definition Is (rangeTab : list Range16) (r : rune) : bool :=
  match last rangeTab with
  | Some top => if (0 <=? r) && (r <=? Hi top) then is16 rangeTab r else false
  | None => false
  end.

End unicode.

(** ** util.go *)

(** The loop of [isHash]: [false] at the first rune that is not a hex
    digit. *)
Fixpoint isHash_loop (rs : list rune) : bool :=
  match rs with
  | [] => true
  | r :: rs' =>
    if negb (unicode.Is unicode.ASCII_Hex_Digit r) then false
    else isHash_loop rs'
  end.

(** Checks whether string is a hash (sha1). *)
Definition isHash (hash : string) : bool :=
  if negb (Nat.eqb (String.length hash) 40) then false
  else isHash_loop (utf8.range hash).

(** [hash[:7]]: the slice expression panics when [len(hash) < 7]. *)
Definition shortHash (hash : string) : result string :=
  if Nat.leb 7 (String.length hash) then Ret (substring 0 7 hash)
  else Panic.

(** [set] with its loop state: the slice [dedup] and the map [elems]. *)
Fixpoint set_loop (dedup : list string) (elems : gmap string bool)
    (slice : list string) : list string :=
  match slice with
  | [] => dedup
  | elem :: slice' =>
    match elems !! elem with
    | None => set_loop (dedup ++ [elem]) (<[elem := true]> elems) slice'
    | Some _ => set_loop dedup elems slice'
    end
  end.

Definition set (slice : list string) : list string :=
  set_loop [] ∅ slice.

(** [fmt.Errorf("invalid <hash>: %v", hash)]. *)
Definition invalid_hash_error (hash : string) : error :=
  ("invalid <hash>: " ++ hash)%string.

(** The loop of [validHashes] over the named results [valid] and [err]. *)
Fixpoint validHashes_loop (valid : list string) (err : option error)
    (hashes : list string) : list string * option error :=
  match hashes with
  | [] => (valid, err)
  | hash :: hashes' =>
    if isHash hash
    then validHashes_loop (valid ++ [hash]) err hashes'
    else validHashes_loop valid (Some (invalid_hash_error hash)) hashes'
  end.

Definition validHashes (hashes : list string) : list string * option error :=
  let hashes := set hashes in
  validHashes_loop [] None hashes.

(** ** [crypto/sha1]

    SHA-1 as in FIPS 180 on a message of bytes; words are 32 bits wide,
    kept in [Z] and wrapped by [w32]. *)

Module sha1.

Definition w32 (x : Z) : Z := x mod 2 ^ 32.

Definition rotl (n x : Z) : Z :=
  w32 (Z.lor (Z.shiftl x n) (Z.shiftr x (32 - n))).

Definition not32 (x : Z) : Z := Z.lxor x 0xFFFFFFFF.

(** The chaining value [h0 .. h4]. *)
Record digest := { h0 : Z; h1 : Z; h2 : Z; h3 : Z; h4 : Z }.

Definition init : digest :=
  {| h0 := 0x67452301; h1 := 0xEFCDAB89; h2 := 0x98BADCFE;
     h3 := 0x10325476; h4 := 0xC3D2E1F0 |}.

(** Big-endian words of a block of bytes. *)
Fixpoint words (bs : list Z) : list Z :=
  match bs with
  | b0 :: b1 :: b2 :: b3 :: bs' =>
    Z.lor (Z.lor (Z.lor (Z.shiftl b0 24) (Z.shiftl b1 16)) (Z.shiftl b2 8)) b3
    :: words bs'
  | _ => []
  end.

(** The message schedule, latest word first: [n] more words after
    those of [ws]. *)
Fixpoint schedule (n : nat) (ws : list Z) : list Z :=
  match n with
  | O => ws
  | S n' =>
    let w := rotl 1 (Z.lxor (Z.lxor (Z.lxor (nth 2 ws 0) (nth 7 ws 0))
                                    (nth 13 ws 0)) (nth 15 ws 0)) in
    schedule n' (w :: ws)
  end.

Definition round (i : nat) (st : digest) (w : Z) : digest :=
  let '(a, b, c, d, e) := (h0 st, h1 st, h2 st, h3 st, h4 st) in
  let '(f, k) :=
    if Nat.ltb i 20 then
      (Z.lor (Z.land b c) (Z.land (not32 b) d), 0x5A827999)
    else if Nat.ltb i 40 then
      (Z.lxor (Z.lxor b c) d, 0x6ED9EBA1)
    else if Nat.ltb i 60 then
      (Z.lor (Z.lor (Z.land b c) (Z.land b d)) (Z.land c d), 0x8F1BBCDC)
    else
      (Z.lxor (Z.lxor b c) d, 0xCA62C1D6) in
  {| h0 := w32 (rotl 5 a + f + e + k + w); h1 := a; h2 := rotl 30 b;
     h3 := c; h4 := d |}.

Fixpoint rounds (i : nat) (st : digest) (ws : list Z) : digest :=
  match ws with
  | [] => st
  | w :: ws' => rounds (S i) (round i st w) ws'
  end.

(** One block of 64 bytes. *)
Definition block (st : digest) (bs : list Z) : digest :=
  let ws := rev (schedule 64 (rev (words bs))) in
  let st' := rounds 0 st ws in
  {| h0 := w32 (h0 st + h0 st'); h1 := w32 (h1 st + h1 st');
     h2 := w32 (h2 st + h2 st'); h3 := w32 (h3 st + h3 st');
     h4 := w32 (h4 st + h4 st') |}.

(** The blocks of a padded message; [n] bounds their number. *)
Fixpoint blocks (n : nat) (st : digest) (bs : list Z) : digest :=
  match n, bs with
  | S n', _ :: _ => blocks n' (block st (firstn 64 bs)) (skipn 64 bs)
  | _, _ => st
  end.

Definition be_bytes (n : nat) (x : Z) : list Z :=
  map (fun i => Z.land (Z.shiftr x (8 * Z.of_nat i)) 0xFF) (rev (seq 0 n)).

(** The message, a one bit, zeros up to 56 modulo 64, and the length of
    the message in bits on 8 bytes. *)
Definition pad (msg : list Z) : list Z :=
  let len := Z.of_nat (length msg) in
  let zeros := Z.to_nat ((55 - len) mod 64) in
  (msg ++ 0x80 :: repeat 0 zeros ++ be_bytes 8 (8 * len))%list.

(** [sha1.Sum]: the 20 bytes of the checksum. *)
Definition Sum (msg : list Z) : list Z :=
  let padded := pad msg in
  let st := blocks (length padded) init padded in
  (be_bytes 4 (h0 st) ++ be_bytes 4 (h1 st) ++ be_bytes 4 (h2 st)
   ++ be_bytes 4 (h3 st) ++ be_bytes 4 (h4 st))%list.

End sha1.

(** ** [readerHash]

    An [io.Reader] hands out its content in chunks, one for each [Read],
    and then ends with [io.EOF] or fails with an error.  The [hash.Hash]
    that [sha1.New] returns holds the bytes written to it; [Sum] is the
    checksum of all of them. *)

Record Reader := { chunks : list string; failure : option error }.

(** The bytes the reader hands out. *)
Definition content (r : Reader) : list Z := concat (map bytes (chunks r)).

Definition Hash_Write (h : list Z) (p : string) : list Z :=
  (h ++ bytes p)%list.

(** [bf.WriteTo(h)]: every chunk read is written to [h]; the error is
    the one of the reader, [io.EOF] counting as none. *)
Definition WriteTo (r : Reader) (h : list Z) : list Z * option error :=
  (fold_left Hash_Write (chunks r) h, failure r).

Definition hex_digit_of (n : Z) : ascii :=
  nth (Z.to_nat n) (list_ascii_of_string "0123456789abcdef") "0"%char.

(** [fmt.Sprintf("%x", b)] for a byte slice [b]. *)
Fixpoint sprintf_x (b : list Z) : string :=
  match b with
  | [] => EmptyString
  | x :: b' =>
    String (hex_digit_of (Z.shiftr x 4))
      (String (hex_digit_of (Z.land x 0xF)) (sprintf_x b'))
  end.

Definition readerHash (r : Reader) : string * option error :=
  let h := [] in
  let '(h, err) := WriteTo r h in
  match err with
  | Some e => (EmptyString, Some e)
  | None =>
    let hex := sprintf_x (sha1.Sum h) in
    (hex, None)
  end.

(** ** Effects

    Code with effects is a state transformer that returns a value or
    panics; the state is returned in both cases. *)

Definition M (S A : Type) : Type := S -> result A * S.

#[global] Instance M_ret {S : Type} : MRet (M S) :=
  fun A a s => (Ret a, s).

#[global] Instance M_bind {S : Type} : MBind (M S) :=
  fun A B k m s =>
    match m s with
    | (Ret a, s') => k a s'
    | (Panic, s') => (Panic, s')
    end.

Definition ret {S A : Type} (a : A) : M S A := mret a.

(** [defer d()] in front of [body]: [d] runs when [body] returns or
    panics, and its result is dropped. *)
Definition defer {S A B : Type} (d : M S B) (body : M S A) : M S A :=
  fun s => let '(r, s') := body s in let '(_, s'') := d s' in (r, s'').

(** ** The platform

    What the commands call outside [util.go] and [data_blob.go]: the
    [os], [io] and [os/exec] packages ([exec_cp src dst] is
    [exec.Command("cp", src, dst).Run()]), the blobstore behind the
    interface [blobStore], and the functions of the package that build
    the [DataIndex] and the [Manifest].  [Env] is the state of the file
    system, the stores and the network; each operation takes and
    returns it.  A Go pair [(v, err)] is [inl v] when [err] is [nil] and
    [inr err] otherwise. *)

Record blobStore (Env File ReadCloser : Type) := {
  Put : string -> File -> Env -> option error * Env;
  Get : string -> Env -> (ReadCloser + error) * Env;
}.
Arguments Put {Env File ReadCloser} _.
Arguments Get {Env File ReadCloser} _.

Record DataIndex (Env File ReadCloser : Type) := {
  BlobStore : blobStore Env File ReadCloser;
}.
Arguments BlobStore {Env File ReadCloser} _.

Record Platform := {
  Env : Type;
  File : Type;
  ReadCloser : Type;
  Manifest : Type;
  os_Open : string -> Env -> (File + error) * Env;
  os_Create : string -> Env -> (File + error) * Env;
  File_Close : File -> Env -> option error * Env;
  io_Copy : File -> ReadCloser -> Env -> option error * Env;
  ReadCloser_Close : ReadCloser -> Env -> option error * Env;
  exec_cp : string -> string -> Env -> option error * Env;
  mainDataIndex_ : Env -> (DataIndex Env File ReadCloser + error) * Env;
  NewManifest : string -> Env -> Manifest * Env;
  PathsForHash : Manifest -> string -> Env -> (list string + error) * Env;
  AllHashes : Manifest -> Env -> list string * Env;
}.

(** What a run does to the platform, in order. *)
Inductive Event : Type :=
| EvOut (text : string)
| EvOpen (path : string)
| EvCreate (path : string)
| EvCloseFile
| EvIoCopy
| EvCloseReader
| EvCopyFile (src dst : string)
| EvStorePut (key : string)
| EvStoreGet (key : string)
| EvMainDataIndex
| EvNewManifest
| EvPathsForHash (hash : string)
| EvAllHashes.

#[global] Instance Event_eq_dec : EqDecision Event.
Proof. solve_decision. Defined.

Definition newline : string := String (ascii_of_nat 10) EmptyString.

(** [%.7s] and the like: [fmt] cuts the string in front of the rune
    number [prec], counting from 0. *)
Fixpoint truncateString (prec skip : nat) (s : string) : string :=
  match s with
  | EmptyString => EmptyString
  | String c s' =>
    match skip with
    | S k => String c (truncateString prec k s')
    | O =>
      match prec with
      | O => EmptyString
      | S prec' =>
        let '(_, size) := utf8.next (bytes s) in
        String c (truncateString prec' (Nat.pred size) s')
      end
    end
  end.

Definition blobKey (hash : string) : string := ("/blob/" ++ hash)%string.

Section Commands.

Context (P : Platform).

(** The state of the process: the platform, and the log of what was
    done to it. *)
Record IO := { log : list Event; env : Env P }.

(** A call into the platform, logged. *)
Definition call {A : Type} (ev : Event) (op : Env P -> A * Env P) : M IO A :=
  fun s =>
    let '(a, e) := op (env s) in
    (Ret a, {| log := log s ++ [ev]; env := e |}).

(** [pOut]: the formatted text goes to standard output. *)
Definition pOut (text : string) : M IO unit :=
  fun s => (Ret tt, {| log := log s ++ [EvOut text]; env := env s |}).

Definition mainDataIndex
    : M IO (DataIndex (Env P) (File P) (ReadCloser P) + error) :=
  call EvMainDataIndex (mainDataIndex_ P).

Definition copyFile (src dst : string) : M IO (option error) :=
  call (EvCopyFile src dst) (exec_cp P src dst).

(** DataIndex extension to handle putting blob. *)
Definition putBlob (i : DataIndex (Env P) (File P) (ReadCloser P)) (hash path : string) : M IO (option error) :=
  r ← call (EvOpen path) (os_Open P path);
  match r with
  | inr err => ret (Some err)
  | inl f =>
    defer (call EvCloseFile (File_Close P f))
      (err ← call (EvStorePut (blobKey hash))
                 (Put (BlobStore i) (blobKey hash) f);
       match err with
       | Some e => ret (Some e)
       | None =>
         err ← call EvCloseFile (File_Close P f);
         match err with
         | Some e => ret (Some e)
         | None => ret None
         end
       end)
  end.

(** DataIndex extension to handle getting blob. *)
Definition getBlob (i : DataIndex (Env P) (File P) (ReadCloser P)) (hash path : string) : M IO (option error) :=
  r ← call (EvStoreGet (blobKey hash)) (Get (BlobStore i) (blobKey hash));
  match r with
  | inr err => ret (Some err)
  | inl r =>
    defer (call EvCloseReader (ReadCloser_Close P r))
      (w ← call (EvCreate path) (os_Create P path);
       match w with
       | inr err => ret (Some err)
       | inl w =>
         defer (call EvCloseFile (File_Close P w))
           (err ← call EvIoCopy (io_Copy P w r);
            match err with
            | Some e => ret (Some e)
            | None =>
              err ← call EvCloseFile (File_Close P w);
              match err with
              | Some e => ret (Some e)
              | None =>
                err ← call EvCloseReader (ReadCloser_Close P r);
                match err with
                | Some e => ret (Some e)
                | None => ret None
                end
              end
            end)
       end)
  end.

Definition blobPaths (hash : string) : M IO (list string + error) :=
  mf ← call EvNewManifest (NewManifest P "");
  call (EvPathsForHash hash) (PathsForHash P mf hash).

(** The type [blobCmdFunc]. *)
Definition blobCmdFunc : Type :=
  DataIndex (Env P) (File P) (ReadCloser P) ->
  string -> list string -> M IO (option error).

(** The function literal [f] of [blobPutCmd]; [paths[0]] panics on an
    empty slice. *)
Definition blobPut_f : blobCmdFunc :=
  fun d hash paths =>
    match paths with
    | [] => fun s => (Panic, s)
    | paths0 :: _ =>
      pOut ("put blob " ++ truncateString 7 0 hash ++ " " ++ paths0
            ++ newline)%string;;
      putBlob d hash paths0
    end.

(** The loop of [blobGetCmd]'s [f] that copies what we got to others. *)
Fixpoint blobGet_copy (hash paths0 : string) (others : list string)
    : M IO (option error) :=
  match others with
  | [] => ret None
  | path :: others' =>
    pOut ("get blob " ++ truncateString 7 0 hash ++ " " ++ path
          ++ newline)%string;;
    err ← copyFile paths0 path;
    match err with
    | Some e => ret (Some e)
    | None => blobGet_copy hash paths0 others'
    end
  end.

(** The function literal [f] of [blobGetCmd]. *)
Definition blobGet_f : blobCmdFunc :=
  fun d hash paths =>
    match paths with
    | [] => fun s => (Panic, s)
    | paths0 :: paths1 =>
      pOut ("get blob " ++ truncateString 7 0 hash ++ " " ++ paths0
            ++ newline)%string;;
      (* download one blob *)
      err ← getBlob d hash paths0;
      match err with
      | Some e => ret (Some e)
      | None => blobGet_copy hash paths0 paths1
      end
    end.

(** The state of [blobCmdRunFunc]: the process, and the calls of [f]
    made so far, hash and paths, kept for the proofs. *)
Record Run := { calls : list (string * list string); world : IO }.

(** The rest of the process runs inside [blobCmdRunFunc]. *)
Definition lift {A : Type} (m : M IO A) : M Run A :=
  fun s =>
    let '(r, w) := m (world s) in (r, {| calls := calls s; world := w |}).

(** [f(dataIndex, hash, paths)] *)
Definition call_f (f : blobCmdFunc) (dataIndex : DataIndex (Env P) (File P) (ReadCloser P))
    (hash : string) (paths : list string) : M Run (option error) :=
  fun s =>
    let '(r, w) := f dataIndex hash paths (world s) in
    (r, {| calls := calls s ++ [(hash, paths)]; world := w |}).

(** The [for] loop of [blobCmdRunFunc], from the map [done] on. *)
Fixpoint blobCmdRunFunc_loop (f : blobCmdFunc) (dataIndex : DataIndex (Env P) (File P) (ReadCloser P))
    (done : gmap string bool) (hashes : list string)
    : M Run (option error) :=
  match hashes with
  | [] => ret None
  | hash :: hashes' =>
    match done !! hash with
    | Some _ => blobCmdRunFunc_loop f dataIndex done hashes'
    | None =>
      if negb (isHash hash) then ret (Some (invalid_hash_error hash))
      else
        r ← lift (blobPaths hash);
        match r with
        | inr err => ret (Some err)
        | inl paths =>
          err ← call_f f dataIndex hash paths;
          match err with
          | Some e => ret (Some e)
          | None =>
            blobCmdRunFunc_loop f dataIndex (<[hash := true]> done) hashes'
          end
        end
    end
  end.

(** Run a blob get/put function on all hashes provided. *)
Definition blobCmdRunFunc (hashes : list string) (f : blobCmdFunc)
    : M Run (option error) :=
  if Nat.ltb (length hashes) 1
  then ret (Some "at least one <hash> argument required.")
  else
    r ← lift mainDataIndex;
    match r with
    | inr err => ret (Some err)
    | inl dataIndex => blobCmdRunFunc_loop f dataIndex ∅ hashes
    end.

(** Appends any hashes in the manifest if [--all] is passed in; [all]
    is the value of the flag. *)
Definition blobCmdHashes (all : bool) (args : list string)
    : M IO (list string) :=
  if all then
    mf ← call EvNewManifest (NewManifest P "");
    hs ← call EvAllHashes (AllHashes P mf);
    ret (args ++ hs)%list
  else ret args.

Definition blobPutCmd (all : bool) (args : list string)
    : M Run (option error) :=
  hashes ← lift (blobCmdHashes all args);
  blobCmdRunFunc hashes blobPut_f.

Definition blobGetCmd (all : bool) (args : list string)
    : M Run (option error) :=
  hashes ← lift (blobCmdHashes all args);
  blobCmdRunFunc hashes blobGet_f.

(** A process that starts: nothing logged, no call made. *)
Definition start (e : Env P) : Run :=
  {| calls := []; world := {| log := []; env := e |} |}.

End Commands.

Arguments log {P} _.
Arguments env {P} _.
Arguments calls {P} _.
Arguments world {P} _.


(** [n] repetitions of the character [c]. *)
Fixpoint repeat_char (c : ascii) (n : nat) : string :=
  match n with
  | O => EmptyString
  | S n' => String c (repeat_char c n')
  end.

(** ** A platform to run the commands on

    Files and blobs are maps from names to contents, every call succeeds
    when the name it reads exists, and a file handle is the file's path. *)

Module Sim.

Record state := {
  files : gmap string string;
  blobs : gmap string string;
}.

Definition open (path : string) (e : state) : (string + error) * state :=
  match files e !! path with
  | Some _ => (inl path, e)
  | None => (inr ("open " ++ path ++ ": no such file or directory")%string, e)
  end.

Definition create (path : string) (e : state) : (string + error) * state :=
  (inl path, {| files := <[path := ""]> (files e); blobs := blobs e |}).

Definition close {A : Type} (_ : A) (e : state) : option error * state :=
  (None, e).

Definition copy (w : string) (r : string) (e : state)
    : option error * state :=
  (None, {| files := <[w := r]> (files e); blobs := blobs e |}).

Definition cp (src dst : string) (e : state) : option error * state :=
  match files e !! src with
  | Some content =>
    (None, {| files := <[dst := content]> (files e); blobs := blobs e |})
  | None => (Some "exit status 1", e)
  end.

Definition put (key : string) (value : string) (e : state)
    : option error * state :=
  match files e !! value with
  | Some content =>
    (None, {| files := files e; blobs := <[key := content]> (blobs e) |})
  | None => (Some "read: bad file descriptor", e)
  end.

Definition get (key : string) (e : state) : (string + error) * state :=
  match blobs e !! key with
  | Some content => (inl content, e)
  | None => (inr "404 Not Found", e)
  end.

Definition index (e : state)
    : (DataIndex state string string + error) * state :=
  (inl {| BlobStore := {| Put := put; Get := get |} |}, e).

(** Modelled from the spec: the [Manifest], which is not part of these
    files.  It maps each tracked path to its content hash, here by the
    table [tracked]; [pathsForHash] returns all paths whose hash equals
    the argument, in a stable order, and fails if no tracked path
    matches; [allHashes] returns the distinct hashes of all tracked
    files. *)
Definition manifest (_ : string) (e : state) : unit * state := (tt, e).

Definition pathsForHash (tracked : list (string * string)) (_ : unit)
    (hash : string) (e : state) : (list string + error) * state :=
  match filter (fun entry => String.eqb (snd entry) hash) tracked with
  | [] => (inr ("hash not found in manifest: " ++ hash)%string, e)
  | found => (inl (map fst found), e)
  end.

Definition allHashes (tracked : list (string * string)) (_ : unit)
    (e : state) : list string * state :=
  (set (map snd tracked), e).

Definition platform_of (tracked : list (string * string)) : Platform := {|
  Env := state;
  File := string;
  ReadCloser := string;
  Manifest := unit;
  os_Open := open;
  os_Create := create;
  File_Close := close;
  io_Copy := copy;
  ReadCloser_Close := close;
  exec_cp := cp;
  mainDataIndex_ := index;
  NewManifest := manifest;
  PathsForHash := pathsForHash tracked;
  AllHashes := allHashes tracked;
|}.

(** Three hashes, and a string that is not one. *)
Definition H1 : string := repeat_char "a" 40.
Definition H2 : string := repeat_char "b" 40.
Definition bad : string := "not-a-hash".

(** The manifest [{fileA: H1, fileB: H1, fileC: H2}]. *)
Definition platform : Platform :=
  platform_of [("fileA", H1); ("fileB", H1); ("fileC", H2)].

(** The blobs are in the store and the files are not there yet. *)
Definition remote : state := {|
  files := ∅;
  blobs := {[ blobKey H1 := "one"; blobKey H2 := "two" ]};
|}.

(** The files are there and the store is empty. *)
Definition local : state := {|
  files := {[ "fileA" := "one"; "fileB" := "one"; "fileC" := "two" ]};
  blobs := ∅;
|}.

End Sim.

(** ** The words of the specification *)

(** [deduplicate]: the input sequence with later duplicates removed,
    preserving first-seen order. *)
Fixpoint deduplicate (l : list string) : list string :=
  match l with
  | [] => []
  | x :: l' => x :: filter (fun y => y <> x) (deduplicate l')
  end.

(** [sub] occurs in [s]. *)
Fixpoint contains (sub s : string) : bool :=
  String.prefix sub s
  || match s with
     | EmptyString => false
     | String _ s' => contains sub s'
     end.

(** The map [done] after the hashes [hashes] went through the loop. *)
Definition mark (done : gmap string bool) (hashes : list string)
    : gmap string bool :=
  foldl (fun d h => <[h := true]> d) done hashes.

(** An operation on the blobstore under the key of [hash]. *)
Definition is_store_op (hash : string) (ev : Event) : bool :=
  match ev with
  | EvStorePut key | EvStoreGet key => String.eqb key (blobKey hash)
  | _ => false
  end.

Definition store_ops (hash : string) (evs : list Event) : nat :=
  length (List.filter (is_store_op hash) evs).

(** Any operation on the blobstore. *)
Definition is_store_event (ev : Event) : bool :=
  match ev with
  | EvStorePut _ | EvStoreGet _ => true
  | _ => false
  end.

Definition is_copy_event (ev : Event) : bool :=
  match ev with
  | EvCopyFile _ _ => true
  | _ => false
  end.

(** The claim of validation at the start of the batch: with an invalid
    hash in the batch, no call of [f] is made. *)
Definition validation_at_batch_start : Prop :=
  forall (P : Platform) (f : blobCmdFunc P) (hashes : list string)
         (e : Env P),
    (exists h, h ∈ hashes /\ isHash h = false) ->
    calls (snd (blobCmdRunFunc P hashes f (start P e))) = [].

(** The claim of context in the error: when the transfer of [hash]
    fails, the error of the batch names [hash] and one of its paths. *)
Definition failure_carries_context : Prop :=
  forall (P : Platform) (f : blobCmdFunc P) (hash : string)
         (post : list string) (e : Env P) dataIndex w0 paths w1 err w2,
    isHash hash = true ->
    mainDataIndex P {| log := []; env := e |} = (Ret (inl dataIndex), w0) ->
    blobPaths P hash w0 = (Ret (inl paths), w1) ->
    f dataIndex hash paths w1 = (Ret (Some err), w2) ->
    exists err',
      fst (blobCmdRunFunc P (hash :: post) f (start P e)) = Ret (Some err') /\
      contains hash err' = true /\
      exists path, path ∈ paths /\ contains path err' = true.

(** [f] touches the blobstore only under the key of the hash it is
    called with, and at most once. *)
Definition own_blob_once (P : Platform) (f : blobCmdFunc P) : Prop :=
  forall dataIndex hash paths (w : IO P) H,
    exists evs,
      log (snd (f dataIndex hash paths w)) = (log w ++ evs)%list /\
      (store_ops H evs <= if decide (hash = H) then 1 else 0)%nat.


(** The character class [[0-9a-fA-F]]. *)
Definition hex_digits : list ascii :=
  list_ascii_of_string "0123456789abcdefABCDEF".

Definition is_hex_digit (c : ascii) : bool :=
  existsb (Ascii.eqb c) hex_digits.

(** The same class on runes. *)
Definition hex_rune (r : rune) : Prop :=
  0x30 <= r <= 0x39 \/ 0x41 <= r <= 0x46 \/ 0x61 <= r <= 0x66.

(** The claim that [shortHash] has a result on every string. *)
Definition shortHash_total : Prop :=
  forall hash : string, exists short, shortHash hash = Ret short.

(** The [DataIndex] of the platform [Sim], and a start of the process
    on it. *)
Definition Sim_index : DataIndex Sim.state string string :=
  {| BlobStore := {| Put := Sim.put; Get := Sim.get |} |}.

Definition Sim_io (e : Sim.state) : IO Sim.platform :=
  Build_IO Sim.platform [] e.

(** A platform like [Sim] whose manifest answers every hash with an
    empty list of paths and no error. *)
Definition Sim_no_paths : Platform := {|
  Env := Sim.state;
  File := string;
  ReadCloser := string;
  Manifest := unit;
  os_Open := Sim.open;
  os_Create := Sim.create;
  File_Close := Sim.close;
  io_Copy := Sim.copy;
  ReadCloser_Close := Sim.close;
  exec_cp := Sim.cp;
  mainDataIndex_ := Sim.index;
  NewManifest := Sim.manifest;
  PathsForHash := fun _ _ e => (inl [], e);
  AllHashes := fun _ e => ([], e);
|}.

(** The manifest never answers with an empty list of paths and no
    error. *)
Definition manifest_finds_paths (P : Platform) : Prop :=
  forall (mf : Manifest P) (hash : string) (e : Env P),
    fst (PathsForHash P mf hash e) <> inl [].

(** The text [blobGetCmd] and [blobPutCmd] print for a path. *)
Definition get_message (hash path : string) : string :=
  ("get blob " ++ truncateString 7 0 hash ++ " " ++ path ++ newline)%string.

Definition put_message (hash path : string) : string :=
  ("put blob " ++ truncateString 7 0 hash ++ " " ++ path ++ newline)%string.

(** * Properties of the hash utilities *)

(** ** Hex digits *)

Lemma byte_val_bounded c : 0 <= byte_val c < 256.
Proof.
  unfold byte_val. pose proof (N_ascii_bounded c). lia.
Qed.

Lemma Is_ASCII_Hex_Digit r :
  unicode.Is unicode.ASCII_Hex_Digit r = true <-> hex_rune r.
Proof.
  unfold unicode.Is, hex_rune; cbn.
  repeat match goal with
         | |- context [Z.leb ?a ?b] => destruct (Z.leb_spec a b); cbn
         | |- context [Z.ltb ?a ?b] => destruct (Z.ltb_spec a b); cbn
         end; split; intros; try discriminate; try reflexivity; lia.
Qed.

Lemma Is_ASCII_Hex_Digit_byte c :
  unicode.Is unicode.ASCII_Hex_Digit (byte_val c) = is_hex_digit c.
Proof.
  destruct c as [[] [] [] [] [] [] [] []]; reflexivity.
Qed.

Lemma not_hex_above_ascii r :
  utf8.rune1Max < r -> unicode.Is unicode.ASCII_Hex_Digit r = false.
Proof.
  intros Hr. destruct (unicode.Is unicode.ASCII_Hex_Digit r) eqn:E; [|done].
  apply Is_ASCII_Hex_Digit in E. unfold hex_rune, utf8.rune1Max in *. lia.
Qed.

(** ** [range] on ASCII and non-ASCII bytes *)

Lemma decoderune_above_ascii s : utf8.rune1Max < fst (utf8.decoderune s).
Proof.
  unfold utf8.decoderune.
  repeat match goal with
         | |- context [match ?l with [] => _ | _ :: _ => _ end] => destruct l
         | |- context [if ?b then _ else _] => destruct b eqn:?
         end; cbn [fst]; try (vm_compute; reflexivity);
  repeat match goal with
         | H : (_ && _) = true |- _ => apply andb_true_iff in H as [? ?]
         | H : (_ <? _) = true |- _ => apply Z.ltb_lt in H
         end;
  unfold utf8.rune1Max, utf8.rune2Max, utf8.rune3Max in *; lia.
Qed.

Lemma range_ascii c s :
  byte_val c < utf8.runeSelf ->
  utf8.range (String c s) = byte_val c :: utf8.range s.
Proof.
  intros Hc. unfold utf8.range; cbn.
  apply Z.ltb_lt in Hc. by rewrite Hc.
Qed.

Lemma range_non_ascii c s :
  utf8.runeSelf <= byte_val c ->
  exists r rs, utf8.range (String c s) = r :: rs /\ utf8.rune1Max < r.
Proof.
  intros Hc. unfold utf8.range. cbn [bytes utf8.range_from utf8.next].
  apply Z.ltb_ge in Hc. rewrite Hc.
  pose proof (decoderune_above_ascii (byte_val c :: bytes s)) as Hr.
  destruct (utf8.decoderune _) as [r size]. eauto.
Qed.

Lemma isHash_loop_range s :
  isHash_loop (utf8.range s) = forallb is_hex_digit (list_ascii_of_string s).
Proof.
  induction s as [|c s IH]; [done|].
  cbn [list_ascii_of_string forallb].
  destruct (Z.lt_ge_cases (byte_val c) utf8.runeSelf) as [Hc|Hc].
  - rewrite (range_ascii _ _ Hc). cbn [isHash_loop].
    rewrite Is_ASCII_Hex_Digit_byte, IH. by destruct (is_hex_digit c).
  - destruct (range_non_ascii c s Hc) as (r & rs & -> & Hr).
    cbn [isHash_loop]. rewrite (not_hex_above_ascii r Hr).
    rewrite <- Is_ASCII_Hex_Digit_byte, not_hex_above_ascii; [done|].
    unfold utf8.rune1Max, utf8.runeSelf in *. lia.
Qed.

Lemma isHash_loop_Forall rs :
  isHash_loop rs = true <-> Forall hex_rune rs.
Proof.
  induction rs as [|r rs IH]; cbn [isHash_loop].
  - split; [constructor|done].
  - destruct (unicode.Is unicode.ASCII_Hex_Digit r) eqn:E; cbn.
    + rewrite IH. apply Is_ASCII_Hex_Digit in E. split.
      * by constructor.
      * by inversion 1.
    + split; [done|]. inversion 1 as [|? ? Hr]; subst.
      apply Is_ASCII_Hex_Digit in Hr. congruence.
Qed.

(** A string of hex runes is ASCII: every rune is one byte. *)
Lemma range_hex_length s :
  Forall hex_rune (utf8.range s) ->
  length (utf8.range s) = String.length s.
Proof.
  induction s as [|c s IH]; [done|].
  destruct (Z.lt_ge_cases (byte_val c) utf8.runeSelf) as [Hc|Hc].
  - rewrite (range_ascii _ _ Hc). inversion 1; subst. cbn. f_equal. auto.
  - destruct (range_non_ascii c s Hc) as (r & rs & -> & Hr).
    inversion 1 as [|? ? Hx]; subst.
    unfold hex_rune, utf8.rune1Max in *. lia.
Qed.

Lemma isHash_iff_bytes s :
  isHash s = true <->
  String.length s = 40%nat /\
  forall c, In c (list_ascii_of_string s) -> is_hex_digit c = true.
Proof.
  unfold isHash. rewrite isHash_loop_range, <- forallb_forall.
  destruct (Nat.eqb_spec (String.length s) 40); cbn; intuition congruence.
Qed.

Lemma isHash_iff_runes s :
  isHash s = true <->
  length (utf8.range s) = 40%nat /\ Forall hex_rune (utf8.range s).
Proof.
  unfold isHash.
  destruct (Nat.eqb_spec (String.length s) 40) as [E|E]; cbn.
  - rewrite isHash_loop_Forall. split; [|tauto].
    intros H. split; [|done]. by rewrite range_hex_length.
  - split; [done|]. intros [Hl H]. rewrite (range_hex_length _ H) in Hl. done.
Qed.

(** C3: [isHash s] holds exactly when [s] has 40 characters, each a hex
    digit in [[0-9a-fA-F]].  The length is the one the code tests, in
    bytes; the second equivalence reads "characters" as the runes the
    loop visits, which comes to the same.  Forty [a]s are a hash, forty
    [g]s and ["abc"] are not. *)
Theorem isHash_spec :
  (forall s : string,
     isHash s = true <->
     String.length s = 40%nat /\
     forall c, In c (list_ascii_of_string s) -> In c hex_digits) /\
  (forall s : string,
     isHash s = true <->
     length (utf8.range s) = 40%nat /\ Forall hex_rune (utf8.range s)) /\
  isHash (repeat_char "a" 40) = true /\
  isHash (repeat_char "g" 40) = false /\
  isHash "abc" = false.
Proof.
  split; [|split; [exact isHash_iff_runes|by vm_compute]].
  intros s. rewrite isHash_iff_bytes.
  assert (Hhex : forall c, is_hex_digit c = true <-> In c hex_digits).
  { intros c. unfold is_hex_digit. rewrite existsb_exists. split.
    - intros (x & Hx & E). apply Ascii.eqb_eq in E. by subst.
    - intros Hc. exists c. split; [done|]. apply Ascii.eqb_refl. }
  split; intros [Hl H]; (split; [done|]); intros c Hc; apply Hhex; auto.
Qed.

(** ** [shortHash] *)

Lemma substring_split n s :
  (n <= String.length s)%nat ->
  exists rest,
    s = (substring 0 n s ++ rest)%string /\
    String.length (substring 0 n s) = n.
Proof.
  revert s. induction n as [|n IH]; intros s Hn.
  - exists s. by destruct s.
  - destruct s as [|c s]; cbn in Hn; [lia|].
    destruct (IH s) as (rest & E & L); [lia|].
    exists rest. simpl. split; [|by rewrite L].
    change (String c s = String c (substring 0 n s ++ rest)%string).
    by rewrite <- E.
Qed.

(** C8, as written, fails: ["abc"[:7]] panics. *)
Lemma shortHash_short_panics : ~ shortHash_total.
Proof.
  intros H. destruct (H "abc") as [short E]. vm_compute in E. discriminate.
Qed.

(** C8, amended: on a string of at least 7 bytes, [shortHash] returns
    its first 7 bytes. *)
Theorem shortHash_spec (hash : string) :
  (7 <= String.length hash)%nat ->
  exists short rest,
    shortHash hash = Ret short /\
    hash = (short ++ rest)%string /\
    String.length short = 7%nat.
Proof.
  intros Hlen. unfold shortHash.
  destruct (Nat.leb_spec 7 (String.length hash)); [|lia].
  destruct (substring_split 7 hash Hlen) as (rest & E & L). eauto.
Qed.

Lemma shortHash_spec_witness :
  exists short rest,
    shortHash Sim.H1 = Ret short /\
    Sim.H1 = (short ++ rest)%string /\
    String.length short = 7%nat.
Proof.
  apply (shortHash_spec Sim.H1). vm_compute. lia.
Defined.

(** [shortHash] panics exactly below 7 bytes; a hash is long enough. *)
Lemma shortHash_panics hash :
  shortHash hash = Panic <-> (String.length hash < 7)%nat.
Proof.
  unfold shortHash. destruct (Nat.leb_spec 7 (String.length hash)).
  - split; [done|lia].
  - done.
Qed.

Lemma shortHash_of_hash hash :
  isHash hash = true -> shortHash hash = Ret (substring 0 7 hash).
Proof.
  intros H. apply isHash_iff_bytes in H as [L _].
  unfold shortHash. by rewrite L.
Qed.

(** ** [set] and [validHashes] *)

(** [set] keeps in [elems] exactly the strings it has put in [dedup];
    what it appends is the rest of the input without its later
    duplicates. *)
Lemma set_loop_spec slice : forall dedup (elems : gmap string bool),
  (forall x, is_Some (elems !! x) <-> x ∈ dedup) ->
  set_loop dedup elems slice
  = (dedup ++ filter (fun x => x ∉ dedup) (deduplicate slice))%list.
Proof.
  induction slice as [|elem slice IH]; intros dedup elems Hseen;
    cbn [set_loop deduplicate].
  - by rewrite filter_nil, app_nil_r.
  - rewrite filter_cons, list_filter_filter.
    destruct (elems !! elem) as [b|] eqn:E.
    + assert (elem ∈ dedup) as Hin by (apply Hseen; eauto).
      rewrite decide_False by tauto.
      rewrite (IH dedup elems Hseen). f_equal.
      apply list_filter_iff. intros y. split; [|tauto].
      intros Hy. split; [done|]. by intros ->.
    + assert (elem ∉ dedup) as Hnin.
      { intros Hin. apply Hseen in Hin as [? ?]. congruence. }
      rewrite decide_True by done.
      rewrite (IH (dedup ++ [elem])%list (<[elem := true]> elems)).
      * rewrite <- app_assoc. cbn. do 2 f_equal.
        apply list_filter_iff. intros y.
        rewrite elem_of_app, list_elem_of_singleton. tauto.
      * intros y. rewrite lookup_insert_is_Some, elem_of_app,
          list_elem_of_singleton, Hseen.
        destruct (decide (elem = y)) as [Heq|Hne]; [subst y; tauto|].
        split; [intros [?|[? ?]]|intros [?|?]]; auto; congruence.
Qed.

Lemma set_deduplicate slice : set slice = deduplicate slice.
Proof.
  unfold set. rewrite set_loop_spec.
  - cbn. induction (deduplicate slice) as [|x l IH]; [done|].
    rewrite filter_cons_True by apply not_elem_of_nil. by rewrite IH.
  - intros x. rewrite lookup_empty. split.
    + by intros [? ?].
    + by intros ?%not_elem_of_nil.
Qed.

Lemma elem_of_deduplicate l x : x ∈ deduplicate l <-> x ∈ l.
Proof.
  induction l as [|y l IH]; [done|]. cbn.
  rewrite !elem_of_cons, list_elem_of_filter, IH.
  destruct (decide (x = y)); tauto.
Qed.

Lemma NoDup_deduplicate l : NoDup (deduplicate l).
Proof.
  induction l as [|y l IH]; cbn; [constructor|].
  constructor.
  - rewrite list_elem_of_filter. tauto.
  - by apply NoDup_filter.
Qed.

Lemma validHashes_loop_spec hashes : forall valid err,
  validHashes_loop valid err hashes
  = ((valid ++ filter (fun h => isHash h = true) hashes)%list,
     match last (filter (fun h => isHash h = false) hashes) with
     | Some h => Some (invalid_hash_error h)
     | None => err
     end).
Proof.
  induction hashes as [|hash hashes IH]; intros valid err;
    cbn [validHashes_loop].
  - by rewrite !filter_nil, app_nil_r.
  - rewrite !filter_cons. destruct (isHash hash) eqn:E; rewrite IH.
    + rewrite decide_True, decide_False by done.
      by rewrite <- app_assoc.
    + rewrite decide_False, decide_True by done.
      rewrite last_cons. by destruct (last _).
Qed.

(** C10: [validHashes] returns the valid hashes of its input without
    later duplicates, in first-seen order, and an error exactly when an
    invalid string is among them; the scan does not stop at an invalid
    string, whose error (of the last one) comes with the valid hashes. *)
Theorem validHashes_spec (hashes : list string) :
  set hashes = deduplicate hashes /\
  fst (validHashes hashes)
  = filter (fun h => isHash h = true) (deduplicate hashes) /\
  (snd (validHashes hashes) <> None <->
   exists h, h ∈ deduplicate hashes /\ isHash h = false) /\
  (forall h, h ∈ hashes -> isHash h = true -> h ∈ fst (validHashes hashes)) /\
  snd (validHashes hashes)
  = invalid_hash_error
      <$> last (filter (fun h => isHash h = false) (deduplicate hashes)).
Proof.
  unfold validHashes. rewrite set_deduplicate, validHashes_loop_spec. cbn.
  split; [done|]. split; [done|]. split; [|split].
  - destruct (last _) as [h|] eqn:E.
    + split; [|done]. intros _. exists h.
      apply last_Some_elem_of, list_elem_of_filter in E. tauto.
    + split; [done|]. intros (h & Hin & Hh).
      apply last_None in E.
      assert (h ∈ filter (fun h => isHash h = false) (deduplicate hashes))
        as Hf by (by apply list_elem_of_filter).
      rewrite E in Hf. by apply not_elem_of_nil in Hf.
  - intros h Hin Hh. apply list_elem_of_filter.
    by rewrite elem_of_deduplicate.
  - by destruct (last _).
Qed.

(** * Properties of the blob commands *)

Ltac unfold_M :=
  unfold ret, mbind, M_bind, mret, M_ret, defer, lift, call_f, call, pOut
    in *.

Section Runner.

Context (P : Platform).

Implicit Types (f : blobCmdFunc P) (s : Run P) (w : IO P).
Implicit Types (dataIndex : DataIndex (Env P) (File P) (ReadCloser P)).
Implicit Types (dn : gmap string bool) (hashes pre post : list string).

Lemma dom_mark dn hashes :
  dom (mark dn hashes) = dom dn ∪ list_to_set hashes.
Proof.
  revert dn. induction hashes as [|h hashes IH]; intros dn; cbn.
  - set_solver.
  - rewrite IH, dom_insert_L. set_solver.
Qed.

(** The loop looks only at which keys [done] has. *)
Lemma loop_dom f dataIndex hashes : forall dn dn' s,
  dom dn = dom dn' ->
  blobCmdRunFunc_loop P f dataIndex dn hashes s
  = blobCmdRunFunc_loop P f dataIndex dn' hashes s.
Proof.
  induction hashes as [|h hashes IH]; intros dn dn' s Hdom; [done|].
  cbn [blobCmdRunFunc_loop].
  assert (is_Some (dn !! h) <-> is_Some (dn' !! h)) as Hh
    by (by rewrite <- !elem_of_dom, Hdom).
  destruct (dn !! h) as [b|] eqn:E, (dn' !! h) as [b'|] eqn:E'.
  - by apply IH.
  - destruct Hh as [Hh _]. destruct Hh; eauto; discriminate.
  - destruct Hh as [_ Hh]. destruct Hh; eauto; discriminate.
  - destruct (negb (isHash h)); [done|]. unfold_M.
    destruct (blobPaths P h (world s)) as [[[paths|err]|] w]; try done.
    cbn [world calls].
    destruct (f dataIndex h paths w) as [[[e|]|] w']; try done.
    apply IH. by rewrite !dom_insert_L, Hdom.
Qed.

(** The loop over [pre ++ post]: over [pre], and when that ends without
    an error, over [post]. *)
Lemma loop_app f dataIndex pre post : forall dn s,
  blobCmdRunFunc_loop P f dataIndex dn (pre ++ post) s
  = match blobCmdRunFunc_loop P f dataIndex dn pre s with
    | (Ret None, s1) =>
      blobCmdRunFunc_loop P f dataIndex (mark dn pre) post s1
    | other => other
    end.
Proof.
  induction pre as [|h pre IH]; intros dn s; [done|].
  cbn [blobCmdRunFunc_loop app mark foldl].
  destruct (dn !! h) as [b|] eqn:E.
  - rewrite IH.
    destruct (blobCmdRunFunc_loop P f dataIndex dn pre s)
      as [[[e|]|] s1]; try done.
    apply loop_dom. rewrite !dom_mark, dom_insert_L.
    assert (h ∈ dom dn) by (apply elem_of_dom; eauto). set_solver.
  - destruct (negb (isHash h)); [done|]. unfold_M.
    destruct (blobPaths P h (world s)) as [[[paths|err]|] w]; try done.
    cbn [world calls].
    destruct (f dataIndex h paths w) as [[[e|]|] w']; try done; apply IH.
Qed.

(** A loop that ends without an error met only hashes: strings that
    were in [done], or that [isHash] accepts. *)
Lemma loop_ok_valid f dataIndex hashes : forall dn s s1,
  blobCmdRunFunc_loop P f dataIndex dn hashes s = (Ret None, s1) ->
  forall h, h ∈ hashes -> is_Some (dn !! h) \/ isHash h = true.
Proof.
  induction hashes as [|h0 hashes IH]; intros dn s s1 Hrun h Hin.
  - by apply not_elem_of_nil in Hin.
  - cbn [blobCmdRunFunc_loop] in Hrun.
    apply elem_of_cons in Hin as [->|Hin].
    + destruct (dn !! h0); [eauto|].
      destruct (isHash h0); [auto|]. discriminate.
    + destruct (dn !! h0) as [b|] eqn:E; [by eapply IH|].
      destruct (isHash h0) eqn:Hh0; [|discriminate]. unfold_M. cbn in Hrun.
      destruct (blobPaths P h0 (world s)) as [[[paths|err]|] w]; try done.
      cbn [world calls] in Hrun.
      destruct (f dataIndex h0 paths w) as [[[e|]|] w']; try done.
      destruct (IH _ _ _ Hrun h Hin) as [Hs|Hs]; [|auto].
      apply lookup_insert_is_Some in Hs as [->|[_ Hs]]; auto.
Qed.

Lemma mark_lookup_None dn hashes h :
  dn !! h = None -> h ∉ hashes -> mark dn hashes !! h = None.
Proof.
  intros Hdn Hh. apply not_elem_of_dom. rewrite dom_mark.
  apply not_elem_of_dom in Hdn. set_solver.
Qed.

Lemma blobCmdRunFunc_nonempty hashes f s :
  hashes <> [] ->
  blobCmdRunFunc P hashes f s
  = match mainDataIndex P (world s) with
    | (Ret (inl dataIndex), w0) =>
      blobCmdRunFunc_loop P f dataIndex ∅ hashes
        {| calls := calls s; world := w0 |}
    | (Ret (inr err), w0) => (Ret (Some err), {| calls := calls s; world := w0 |})
    | (Panic, w0) => (Panic, {| calls := calls s; world := w0 |})
    end.
Proof.
  intros Hne. unfold blobCmdRunFunc.
  destruct hashes as [|h hashes]; [done|]. cbn [length Nat.ltb Nat.leb].
  unfold_M. by destruct (mainDataIndex P (world s)) as [[[d|err]|] w0].
Qed.

(** C9: without hashes [blobCmdRunFunc] returns its error at once; the
    state it returns is the one it was given, so no [DataIndex] was
    made, no hash checked or looked up, and the store not touched.  So
    do [blobPutCmd] and [blobGetCmd] without arguments and without
    [--all], whose log stays empty; with a hash, the first thing done is
    the call of [mainDataIndex]. *)
Theorem blobCmdRunFunc_no_hashes f s :
  blobCmdRunFunc P [] f s
  = (Ret (Some "at least one <hash> argument required."), s) /\
  (forall e : Env P,
     blobPutCmd P false [] (start P e)
     = (Ret (Some "at least one <hash> argument required."), start P e) /\
     blobGetCmd P false [] (start P e)
     = (Ret (Some "at least one <hash> argument required."), start P e)) /\
  (forall h hashes (e e' : Env P) err,
     mainDataIndex_ P e = (inr err, e') ->
     blobCmdRunFunc P (h :: hashes) f (start P e)
     = (Ret (Some err),
        {| calls := []; world := {| log := [EvMainDataIndex]; env := e' |} |})).
Proof.
  split; [reflexivity|]. split; [by intros e|].
  intros h hashes e e' err Hmain. rewrite blobCmdRunFunc_nonempty by done.
  unfold mainDataIndex. unfold_M. cbn. by rewrite Hmain.
Qed.

(** C1, amended: validation is per item.  When the transfers of the
    hashes in front of an invalid string have succeeded, the batch
    ends there with the validation error, in the state these transfers
    left: they stay done, and nothing is attempted for the invalid
    string or for what follows it. *)
Theorem validation_per_item f pre bad post s dataIndex w0 s1 :
  isHash bad = false ->
  mainDataIndex P (world s) = (Ret (inl dataIndex), w0) ->
  blobCmdRunFunc_loop P f dataIndex ∅ pre {| calls := calls s; world := w0 |}
  = (Ret None, s1) ->
  blobCmdRunFunc P (pre ++ bad :: post) f s
  = (Ret (Some (invalid_hash_error bad)), s1).
Proof.
  intros Hbad Hmain Hpre.
  rewrite blobCmdRunFunc_nonempty by (by destruct pre).
  rewrite Hmain, loop_app, Hpre. cbn [blobCmdRunFunc_loop].
  rewrite mark_lookup_None, Hbad; [done|done|].
  intros Hin. destruct (loop_ok_valid _ _ _ _ _ _ Hpre bad Hin) as [[? ?]|?].
  - by rewrite lookup_empty in *.
  - congruence.
Qed.

(** C6, amended: the first transfer that fails ends the batch.  The
    error of [f] is returned as it is, the calls made are those of the
    hashes in front and this one, and the state is the one the failed
    call left: what was done before stays done. *)
Theorem first_failure_stops f pre hash post s dataIndex w0 s1 paths w2 err w3 :
  mainDataIndex P (world s) = (Ret (inl dataIndex), w0) ->
  blobCmdRunFunc_loop P f dataIndex ∅ pre {| calls := calls s; world := w0 |}
  = (Ret None, s1) ->
  hash ∉ pre ->
  isHash hash = true ->
  blobPaths P hash (world s1) = (Ret (inl paths), w2) ->
  f dataIndex hash paths w2 = (Ret (Some err), w3) ->
  blobCmdRunFunc P (pre ++ hash :: post) f s
  = (Ret (Some err),
     {| calls := (calls s1 ++ [(hash, paths)])%list; world := w3 |}).
Proof.
  intros Hmain Hpre Hnin Hhash Hpaths Hf.
  rewrite blobCmdRunFunc_nonempty by (by destruct pre).
  rewrite Hmain, loop_app, Hpre. cbn [blobCmdRunFunc_loop].
  rewrite mark_lookup_None, Hhash by done. cbn [negb].
  unfold_M. rewrite Hpaths. cbn [world calls]. by rewrite Hf.
Qed.

End Runner.

(** ** Runs on the platform [Sim] *)

(** C1, as written, fails: in the batch [[H1; bad; H2]] the blob [H1] is
    fetched before the invalid string ends the batch. *)
Lemma validation_not_at_batch_start : ~ validation_at_batch_start.
Proof.
  intros Hclaim.
  specialize (Hclaim Sim.platform (blobGet_f Sim.platform)
                     [Sim.H1; Sim.bad; Sim.H2] Sim.remote).
  assert (exists h, h ∈ [Sim.H1; Sim.bad; Sim.H2] /\ isHash h = false) as Hex.
  { exists Sim.bad. split; [|by vm_compute].
    apply elem_of_cons. right. apply elem_of_cons. by left. }
  specialize (Hclaim Hex). vm_compute in Hclaim. discriminate.
Qed.

Lemma validation_per_item_witness :
  exists s1,
    calls s1 = [(Sim.H1, ["fileA"; "fileB"])] /\
    In (EvStoreGet (blobKey Sim.H1)) (log (world s1)) /\
    blobCmdRunFunc Sim.platform ([Sim.H1] ++ Sim.bad :: [Sim.H2])
      (blobGet_f Sim.platform) (start Sim.platform Sim.remote)
    = (Ret (Some (invalid_hash_error Sim.bad)), s1).
Proof.
  eexists. split; [|split]; cycle 2.
  - eapply (validation_per_item Sim.platform (blobGet_f Sim.platform)
              [Sim.H1] Sim.bad [Sim.H2]).
    + vm_compute. reflexivity.
    + vm_compute. reflexivity.
    + vm_compute. reflexivity.
  - reflexivity.
  - cbn. tauto.
Defined.

(** C6, as written, fails: the error of a file that cannot be opened is
    returned as [os.Open] gave it, and does not name the hash. *)
Lemma failure_without_context : ~ failure_carries_context.
Proof.
  intros Hclaim.
  edestruct (Hclaim Sim.platform (blobPut_f Sim.platform) Sim.H1 [Sim.H2]
                    Sim.remote) as (err' & Herr & Hhash & _).
  - vm_compute. reflexivity.
  - vm_compute. reflexivity.
  - vm_compute. reflexivity.
  - vm_compute. reflexivity.
  - vm_compute in Herr. injection Herr as <-. vm_compute in Hhash.
    discriminate.
Qed.

Lemma first_failure_stops_witness :
  exists (s1 : Run Sim.platform) (w3 : IO Sim.platform),
    blobCmdRunFunc Sim.platform ([] ++ Sim.H1 :: [Sim.H2])
      (blobGet_f Sim.platform) (start Sim.platform Sim.local)
    = (Ret (Some "404 Not Found"),
       {| calls := (calls s1 ++ [(Sim.H1, ["fileA"; "fileB"])])%list;
          world := w3 |}) /\
    calls s1 = [] /\
    store_ops Sim.H2 (log w3) = 0%nat.
Proof.
  do 2 eexists. split; [|split].
  - eapply (first_failure_stops Sim.platform (blobGet_f Sim.platform)
              [] Sim.H1 [Sim.H2]).
    + vm_compute. reflexivity.
    + vm_compute. reflexivity.
    + apply not_elem_of_nil.
    + vm_compute. reflexivity.
    + vm_compute. reflexivity.
    + vm_compute. reflexivity.
  - reflexivity.
  - reflexivity.
Defined.

(** ** What the transfer functions do to the store *)

Lemma blobKey_inj h1 h2 : blobKey h1 = blobKey h2 -> h1 = h2.
Proof. intros E. vm_compute in E. congruence. Qed.

Lemma store_ops_app H l1 l2 :
  store_ops H (l1 ++ l2) = (store_ops H l1 + store_ops H l2)%nat.
Proof. unfold store_ops. by rewrite List.filter_app, length_app. Qed.

Lemma store_ops_events H evs :
  store_ops H evs = store_ops H (List.filter is_store_event evs).
Proof.
  unfold store_ops. induction evs as [|ev evs IH]; [done|].
  destruct ev; cbn; try done; destruct (String.eqb _ _); cbn; by rewrite IH.
Qed.

Lemma store_ops_other H hash :
  hash <> H ->
  is_store_op H (EvStorePut (blobKey hash)) = false /\
  is_store_op H (EvStoreGet (blobKey hash)) = false.
Proof.
  intros Hne. cbn. destruct (String.eqb_spec (blobKey hash) (blobKey H)) as [E|E].
  - by apply blobKey_inj in E.
  - done.
Qed.

Section Transfers.

Context (P : Platform).

Implicit Types (w : IO P) (d : DataIndex (Env P) (File P) (ReadCloser P)).

(** [putBlob] puts at most once, under the key of its hash, and does
    not copy files. *)
Lemma putBlob_events d hash path w :
  exists evs,
    log (snd (putBlob P d hash path w)) = (log w ++ evs)%list /\
    (List.filter is_store_event evs = []
     \/ List.filter is_store_event evs = [EvStorePut (blobKey hash)]) /\
    List.filter is_copy_event evs = [] /\
    fst (putBlob P d hash path w) <> Panic.
Proof.
  unfold putBlob. unfold_M. cbn.
  repeat case_match; simplify_eq/=;
    (eexists; split; [by rewrite <- ?app_assoc|]); cbn; auto.
Qed.

(** [getBlob] gets exactly once, under the key of its hash, first of
    all, and does not copy files. *)
Lemma getBlob_events d hash path w :
  exists after,
    log (snd (getBlob P d hash path w))
    = (log w ++ EvStoreGet (blobKey hash) :: after)%list /\
    List.filter is_store_event after = [] /\
    List.filter is_copy_event after = [] /\
    fst (getBlob P d hash path w) <> Panic.
Proof.
  unfold getBlob. unfold_M. cbn.
  repeat case_match; simplify_eq/=;
    (eexists; split; [by rewrite <- ?app_assoc|]); cbn; auto.
Qed.

(** The copy loop copies [paths0] to the paths it is given, in order,
    up to the first copy that fails. *)
Lemma blobGet_copy_events hash paths0 others : forall w,
  exists evs copied,
    log (snd (blobGet_copy P hash paths0 others w)) = (log w ++ evs)%list /\
    List.filter is_store_event evs = [] /\
    List.filter is_copy_event evs = map (EvCopyFile paths0) copied /\
    copied `prefix_of` others /\
    (fst (blobGet_copy P hash paths0 others w) = Ret None ->
     copied = others) /\
    fst (blobGet_copy P hash paths0 others w) <> Panic.
Proof.
  induction others as [|path others IH]; intros w.
  - exists [], []. cbn. by rewrite app_nil_r.
  - cbn [blobGet_copy]. unfold copyFile. unfold_M. cbn.
    destruct (exec_cp P paths0 path (env w)) as [[e|] e1] eqn:Hcp.
    + exists [EvOut ("get blob " ++ truncateString 7 0 hash ++ " " ++ path
                       ++ newline)%string; EvCopyFile paths0 path], [path].
      cbn. rewrite <- app_assoc. repeat split; try done.
      apply prefix_cons. apply prefix_nil.
    + match goal with
      | |- context [blobGet_copy P hash paths0 others ?w'] =>
        destruct (IH w') as (evs & copied & Hlog & Hst & Hcpy & Hpre & Hok & Hnp)
      end.
      exists ([EvOut ("get blob " ++ truncateString 7 0 hash ++ " " ++ path
                       ++ newline)%string; EvCopyFile paths0 path] ++ evs)%list,
             (path :: copied).
      split; [rewrite Hlog; cbn; by rewrite <- !app_assoc|].
      split; [exact Hst|]. split; [cbn; by rewrite Hcpy|].
      split; [by apply prefix_cons|]. split; [|exact Hnp].
      intros Hr. by rewrite Hok.
Qed.

(** [blobGet_f] on a hash with at least one path: one get from the
    store, under the key of the hash, then copies of [paths0] to the
    other paths in order; all of them when it returns [nil]. *)
Lemma blobGet_f_events d hash paths0 others w :
  exists before after copied,
    log (snd (blobGet_f P d hash (paths0 :: others) w))
    = (log w ++ before ++ EvStoreGet (blobKey hash) :: after)%list /\
    List.filter is_store_event before = [] /\
    List.filter is_copy_event before = [] /\
    List.filter is_store_event after = [] /\
    List.filter is_copy_event after = map (EvCopyFile paths0) copied /\
    copied `prefix_of` others /\
    (fst (blobGet_f P d hash (paths0 :: others) w) = Ret None ->
     copied = others) /\
    fst (blobGet_f P d hash (paths0 :: others) w) <> Panic.
Proof.
  unfold blobGet_f. unfold_M.
  match goal with
  | |- context [getBlob P d hash paths0 ?w1] =>
    destruct (getBlob_events d hash paths0 w1) as (after1 & Hlog1 & Hst1 & Hcp1 & Hnp1);
    destruct (getBlob P d hash paths0 w1) as [[[e|]|] w2] eqn:Hget
  end; cbn [fst snd log env] in *.
  - exists [EvOut ("get blob " ++ truncateString 7 0 hash ++ " " ++ paths0
                     ++ newline)%string], after1, [].
    rewrite Hlog1, <- app_assoc. cbn.
    repeat (split; [done || apply prefix_nil|]). done.
  - destruct (blobGet_copy_events hash paths0 others w2)
      as (evs & copied & Hlog2 & Hst2 & Hcp2 & Hpre & Hok & Hnp2).
    exists [EvOut ("get blob " ++ truncateString 7 0 hash ++ " " ++ paths0
                     ++ newline)%string], (after1 ++ evs)%list, copied.
    rewrite Hlog2, Hlog1, !List.filter_app, Hst1, Hst2, Hcp1, Hcp2.
    rewrite <- !app_assoc. cbn. done.
  - done.
Qed.

Lemma store_ops_single H hash :
  (store_ops H [EvStoreGet (blobKey hash)]
   <= if decide (hash = H) then 1 else 0)%nat /\
  (store_ops H [EvStorePut (blobKey hash)]
   <= if decide (hash = H) then 1 else 0)%nat.
Proof.
  destruct (decide (hash = H)) as [->|Hne].
  - unfold store_ops. cbn. destruct (String.eqb _ _); cbn; lia.
  - destruct (store_ops_other H hash Hne) as [Hput Hget].
    unfold store_ops. cbn [List.filter]. rewrite Hput, Hget. cbn. lia.
Qed.

Lemma blobGet_f_own_blob_once : own_blob_once P (blobGet_f P).
Proof.
  intros d hash paths w H. destruct paths as [|paths0 others].
  - exists []. cbn. rewrite app_nil_r. split; [done|].
    unfold store_ops. cbn. lia.
  - destruct (blobGet_f_events d hash paths0 others w)
      as (before & after & copied & Hlog & Hb & _ & Ha & _).
    eexists. split; [exact Hlog|].
    rewrite store_ops_events, List.filter_app. cbn. rewrite Hb, Ha. cbn.
    apply store_ops_single.
Qed.

Lemma blobPut_f_own_blob_once : own_blob_once P (blobPut_f P).
Proof.
  intros d hash paths w H. destruct paths as [|paths0 others].
  - exists []. cbn. rewrite app_nil_r. split; [done|].
    unfold store_ops. cbn. lia.
  - unfold blobPut_f. unfold_M.
    match goal with
    | |- context [putBlob P d hash paths0 ?w1] =>
      destruct (putBlob_events d hash paths0 w1) as (evs & Hlog & Hst & _)
    end.
    destruct (putBlob P d hash paths0 _) as [[r|] w2]; cbn [fst snd log] in *.
    all: eexists; (split; [rewrite Hlog, <- app_assoc; reflexivity|]).
    all: rewrite store_ops_events; cbn [List.filter is_store_event app].
    all: destruct Hst as [-> | ->]; try apply store_ops_single.
    all: unfold store_ops; cbn; lia.
Qed.

End Transfers.

(** ** What a batch does: calls of [f] and operations on the store *)

Section Batch.

Context (P : Platform).

Implicit Types (f : blobCmdFunc P) (s : Run P) (w : IO P).
Implicit Types (dn : gmap string bool) (hashes : list string).

Lemma blobPaths_spec hash w :
  blobPaths P hash w
  = let '(mf, e1) := NewManifest P "" (env w) in
    let '(r, e2) := PathsForHash P mf hash e1 in
    (Ret r,
     {| log := (log w ++ [EvNewManifest; EvPathsForHash hash])%list;
        env := e2 |}).
Proof.
  unfold blobPaths. unfold_M. cbn.
  destruct (NewManifest P "" (env w)) as [mf e1]. cbn.
  destruct (PathsForHash P mf hash e1) as [r e2].
  by rewrite <- app_assoc.
Qed.

Lemma blobPaths_log hash w :
  exists r w',
    blobPaths P hash w = (Ret r, w') /\
    log w' = (log w ++ [EvNewManifest; EvPathsForHash hash])%list.
Proof.
  rewrite blobPaths_spec.
  destruct (NewManifest P "" (env w)) as [mf e1].
  destruct (PathsForHash P mf hash e1) as [r e2]. eauto.
Qed.


(** The calls of [f] a loop adds are for distinct hashes, each valid,
    not in [done] before, and found in the manifest; the operations on
    the blob of [H] are at most as many as the calls for [H]. *)
Lemma loop_trace f dataIndex H hashes : forall dn s,
  exists new,
    calls (snd (blobCmdRunFunc_loop P f dataIndex dn hashes s))
    = (calls s ++ new)%list /\
    NoDup new.*1 /\
    (forall h, h ∈ new.*1 ->
       h ∈ hashes /\ dn !! h = None /\ isHash h = true /\
       exists w paths w', blobPaths P h w = (Ret (inl paths), w')) /\
    (own_blob_once P f ->
     exists evs,
       log (world (snd (blobCmdRunFunc_loop P f dataIndex dn hashes s)))
       = (log (world s) ++ evs)%list /\
       (store_ops H evs <= count_occ string_dec new.*1 H)%nat).
Proof.
  induction hashes as [|h hashes IH]; intros dn s.
  { exists []. cbn. rewrite !app_nil_r.
    split; [done|]. split; [constructor|].
    split; [by intros ? ?%not_elem_of_nil|].
    intros _. exists []. by rewrite app_nil_r. }
  cbn [blobCmdRunFunc_loop].
  destruct (dn !! h) as [b|] eqn:Hdn.
  { destruct (IH dn s) as (new & Hc & Hnd & Hin & Hops).
    exists new. split; [done|]. split; [done|]. split; [|done].
    intros h' Hh'. destruct (Hin h' Hh') as (? & ? & ? & ?).
    split; [by apply elem_of_cons; right|]. auto. }
  destruct (isHash h) eqn:Hh; cbn [negb]; cycle 1.
  { exists []. cbn. rewrite !app_nil_r.
    split; [done|]. split; [constructor|].
    split; [by intros ? ?%not_elem_of_nil|].
    intros _. exists []. by rewrite app_nil_r. }
  unfold_M.
  destruct (blobPaths_log h (world s)) as (r & w1 & Hbp & Hlog1).
  rewrite Hbp. destruct r as [paths|err]; cbn [world calls]; cycle 1.
  { exists []. cbn. rewrite !app_nil_r.
    split; [done|]. split; [constructor|].
    split; [by intros ? ?%not_elem_of_nil|].
    intros _. eexists. split; [exact Hlog1|]. cbn. lia. }
  assert (h ∈ h :: hashes /\ dn !! h = None /\ isHash h = true /\
          exists w paths w', blobPaths P h w = (Ret (inl paths), w'))
    as Hone.
  { split; [by apply elem_of_cons; left|]. eauto 10. }
  assert (own_blob_once P f ->
          exists evs,
            log (snd (f dataIndex h paths w1)) = (log (world s) ++ evs)%list /\
            (store_ops H evs <= if string_dec h H then 1 else 0)%nat)
    as Hfops.
  { intros Hf. destruct (Hf dataIndex h paths w1 H) as (evs & Hlogf & Hle).
    exists ([EvNewManifest; EvPathsForHash h] ++ evs)%list.
    rewrite Hlogf, Hlog1, <- app_assoc. split; [done|].
    rewrite store_ops_app.
    change (store_ops H [EvNewManifest; EvPathsForHash h]) with 0%nat.
    destruct (string_dec h H), (decide (h = H)); try done; cbn; lia. }
  destruct (f dataIndex h paths w1) as [[[e|]|] w2] eqn:Hf; cbn [fst snd] in *.
  - exists [(h, paths)]. split; [done|]. split; [apply NoDup_singleton|].
    split.
    + by intros h' ->%list_elem_of_singleton.
    + intros Hown. destruct (Hfops Hown) as (evs & ? & ?).
      exists evs. split; [done|].
      change (count_occ string_dec [(h, paths)].*1 H)
        with (if string_dec h H then 1 else 0)%nat. done.
  - match goal with
    | |- context [blobCmdRunFunc_loop P f dataIndex ?dn' hashes ?s'] =>
      destruct (IH dn' s') as (new & Hc & Hnd & Hin & Hops)
    end.
    cbn [calls world] in *.
    exists ((h, paths) :: new). rewrite Hc, <- app_assoc. split; [done|].
    split; [|split].
    + cbn. constructor; [|done]. intros Hh'.
      destruct (Hin h Hh') as (_ & Hl & _). by rewrite lookup_insert_eq in Hl.
    + intros h' Hh'. cbn in Hh'. apply elem_of_cons in Hh' as [->|Hh'].
      * exact Hone.
      * destruct (Hin h' Hh') as (? & Hl & ? & ?).
        split; [by apply elem_of_cons; right|].
        apply lookup_insert_None in Hl. tauto.
    + intros Hown. destruct (Hops Hown) as (evs2 & Hlog2 & Hle2).
      destruct (Hfops Hown) as (evs1 & Hlogf & Hle1).
      exists (evs1 ++ evs2)%list. rewrite Hlog2, Hlogf, <- app_assoc.
      split; [done|]. rewrite store_ops_app.
      change (count_occ string_dec ((h, paths) :: new).*1 H)
        with (if string_dec h H then S (count_occ string_dec new.*1 H)
              else count_occ string_dec new.*1 H).
      destruct (string_dec h H); lia.
  - exists [(h, paths)]. split; [done|]. split; [apply NoDup_singleton|].
    split.
    + by intros h' ->%list_elem_of_singleton.
    + intros Hown. destruct (Hfops Hown) as (evs & ? & ?).
      exists evs. split; [done|].
      change (count_occ string_dec [(h, paths)].*1 H)
        with (if string_dec h H then 1 else 0)%nat. done.
Qed.

Lemma NoDup_count_le (l : list string) x :
  NoDup l -> (count_occ string_dec l x <= 1)%nat.
Proof.
  intros Hnd. apply NoDup_ListNoDup in Hnd.
  exact (proj1 (NoDup_count_occ string_dec l) Hnd x).
Qed.

Lemma mainDataIndex_log w :
  exists r w0,
    mainDataIndex P w = (Ret r, w0) /\
    log w0 = (log w ++ [EvMainDataIndex])%list.
Proof.
  unfold mainDataIndex. unfold_M.
  destruct (mainDataIndex_ P (env w)) as [r e0]. eauto.
Qed.

(** [loop_trace] for the whole of [blobCmdRunFunc]. *)
Lemma run_trace f H hashes s :
  exists new,
    calls (snd (blobCmdRunFunc P hashes f s)) = (calls s ++ new)%list /\
    NoDup new.*1 /\
    (forall h, h ∈ new.*1 ->
       h ∈ hashes /\ isHash h = true /\
       exists w paths w', blobPaths P h w = (Ret (inl paths), w')) /\
    (own_blob_once P f ->
     exists evs,
       log (world (snd (blobCmdRunFunc P hashes f s)))
       = (log (world s) ++ evs)%list /\
       (store_ops H evs <= count_occ string_dec new.*1 H)%nat).
Proof.
  destruct hashes as [|h0 hashes0] eqn:Hhs.
  { exists []. cbn. rewrite !app_nil_r.
    split; [done|]. split; [constructor|].
    split; [by intros ? ?%not_elem_of_nil|].
    intros _. exists []. by rewrite app_nil_r. }
  rewrite <- Hhs. rewrite blobCmdRunFunc_nonempty by (by rewrite Hhs).
  destruct (mainDataIndex_log (world s)) as (r & w0 & Hmain & Hlog0).
  rewrite Hmain. destruct r as [dataIndex|err].
  - destruct (loop_trace f dataIndex H hashes ∅
                {| calls := calls s; world := w0 |})
      as (new & Hc & Hnd & Hin & Hops).
    exists new. split; [done|]. split; [done|]. split.
    + intros h Hh. destruct (Hin h Hh) as (? & _ & ? & ?). auto.
    + intros Hown. destruct (Hops Hown) as (evs & Hlog & Hle).
      exists ([EvMainDataIndex] ++ evs)%list. cbn [world] in Hlog.
      rewrite Hlog, Hlog0, <- app_assoc. split; [done|].
      by rewrite store_ops_app.
  - exists []. cbn. rewrite !app_nil_r.
    split; [done|]. split; [constructor|].
    split; [by intros ? ?%not_elem_of_nil|].
    intros _. by exists [EvMainDataIndex].
Qed.

(** The same for a command: the hashes of [--all], then the batch. *)
Lemma cmd_trace f H all args (e : Env P) :
  let out := (hashes ← lift P (blobCmdHashes P all args);
              blobCmdRunFunc P hashes f) (start P e) in
  NoDup (calls (snd out)).*1 /\
  (forall h, h ∈ (calls (snd out)).*1 ->
     isHash h = true /\
     exists w paths w', blobPaths P h w = (Ret (inl paths), w')) /\
  (own_blob_once P f ->
   (store_ops H (log (world (snd out)))
    <= count_occ string_dec (calls (snd out)).*1 H)%nat).
Proof.
  cbn zeta. unfold blobCmdHashes, start.
  assert (forall hashes (s : Run P),
            calls s = [] -> store_ops H (log (world s)) = 0%nat ->
            let out := blobCmdRunFunc P hashes f s in
            NoDup (calls (snd out)).*1 /\
            (forall h, h ∈ (calls (snd out)).*1 ->
               isHash h = true /\
               exists w paths w', blobPaths P h w = (Ret (inl paths), w')) /\
            (own_blob_once P f ->
             (store_ops H (log (world (snd out)))
              <= count_occ string_dec (calls (snd out)).*1 H)%nat)) as Hrun.
  { intros hashes s Hcs Hs0. cbn zeta.
    destruct (run_trace f H hashes s) as (new & Hc & Hnd & Hin & Hops).
    rewrite Hc, Hcs. cbn [app]. split; [done|]. split.
    - intros h Hh. destruct (Hin h Hh) as (_ & ? & ?). auto.
    - intros Hown. destruct (Hops Hown) as (evs & Hlog & Hle).
      rewrite Hlog, store_ops_app, Hs0. done. }
  destruct all; unfold_M; cbn.
  - destruct (NewManifest P "" e) as [mf e1]. cbn.
    destruct (AllHashes P mf e1) as [hs e2]. cbn.
    by apply Hrun.
  - by apply Hrun.
Qed.

(** C2: in a batch [f] is called at most once for each hash, however
    often the hash occurs, be it among the arguments or among the
    hashes of the manifest that [--all] appends; [blobPutCmd] and
    [blobGetCmd] then operate at most once on its blob in the store. *)
Theorem each_hash_at_most_once (H : string) :
  (forall f hashes (e : Env P),
     (count_occ string_dec
        (calls (snd (blobCmdRunFunc P hashes f (start P e)))).*1 H <= 1)%nat) /\
  (forall all args (e : Env P),
     let out := blobPutCmd P all args (start P e) in
     (count_occ string_dec (calls (snd out)).*1 H <= 1)%nat /\
     (store_ops H (log (world (snd out))) <= 1)%nat) /\
  (forall all args (e : Env P),
     let out := blobGetCmd P all args (start P e) in
     (count_occ string_dec (calls (snd out)).*1 H <= 1)%nat /\
     (store_ops H (log (world (snd out))) <= 1)%nat).
Proof.
  split; [|split].
  - intros f hashes e.
    destruct (run_trace f H hashes (start P e)) as (new & Hc & Hnd & _).
    rewrite Hc. cbn [start calls app].
    by apply NoDup_count_le.
  - intros all args e.
    destruct (cmd_trace (blobPut_f P) H all args e) as (Hnd & _ & Hops).
    specialize (Hops (blobPut_f_own_blob_once P)).
    pose proof (NoDup_count_le _ H Hnd) as Hle.
    cbn zeta in *. unfold blobPutCmd. split; [done|]. lia.
  - intros all args e.
    destruct (cmd_trace (blobGet_f P) H all args e) as (Hnd & _ & Hops).
    specialize (Hops (blobGet_f_own_blob_once P)).
    pose proof (NoDup_count_le _ H Hnd) as Hle.
    cbn zeta in *. unfold blobGetCmd. split; [done|]. lia.
Qed.

(** ** A hash the manifest does not know *)




End Batch.

(** ** More runs on the platform [Sim] *)




(** * Properties of [readerHash] *)

(** The model of [crypto/sha1] on the test vectors of FIPS 180. *)
Lemma sha1_test_vectors :
  sprintf_x (sha1.Sum (bytes "abc"))
  = "a9993e364706816aba3e25717850c26c9cd0d89d" /\
  sprintf_x (sha1.Sum (bytes ""))
  = "da39a3ee5e6b4b0d3255bfef95601890afd80709" /\
  sprintf_x (sha1.Sum (bytes
      "abcdbcdecdefdefgefghfghighijhijkijkljklmklmnlmnomnopnopq"))
  = "84983e441c3bd26ebaae4aa1f95129e5e54670f1".
Proof. by vm_compute. Qed.

Lemma WriteTo_content l : forall h,
  fold_left Hash_Write l h = (h ++ concat (map bytes l))%list.
Proof.
  induction l as [|p l IH]; intros h; cbn.
  - by rewrite app_nil_r.
  - rewrite IH. unfold Hash_Write. by rewrite <- app_assoc.
Qed.




Lemma hex_digit_of_lower n :
  In (hex_digit_of n) (list_ascii_of_string "0123456789abcdef").
Proof.
  unfold hex_digit_of.
  destruct (nth_in_or_default (Z.to_nat n)
              (list_ascii_of_string "0123456789abcdef") "0"%char)
    as [Hin| ->]; [exact Hin|].
  by left.
Qed.

Lemma sprintf_x_lower b c :
  In c (list_ascii_of_string (sprintf_x b)) ->
  In c (list_ascii_of_string "0123456789abcdef").
Proof.
  induction b as [|x b IH]; cbn [sprintf_x list_ascii_of_string In]; [done|].
  intros [<-|[<-|Hc]]; [apply hex_digit_of_lower..|by apply IH].
Qed.


Lemma readerHash_ok r :
  failure r = None ->
  readerHash r = (sprintf_x (sha1.Sum (content r)), None).
Proof.
  intros Hr. unfold readerHash, WriteTo, content.
  by rewrite Hr, WriteTo_content.
Qed.

Lemma readerHash_failure r e :
  failure r = Some e -> readerHash r = (EmptyString, Some e).
Proof. intros Hr. unfold readerHash, WriteTo. by rewrite Hr. Qed.



(** * Further properties of the hash utilities *)

(** ** [set] *)

Lemma filter_all (Q : string -> Prop) `{!forall x, Decision (Q x)}
    (l : list string) :
  (forall x, x ∈ l -> Q x) -> filter Q l = l.
Proof.
  induction l as [|x l IH]; intros HQ; [done|].
  rewrite filter_cons_True by (apply HQ; by left).
  f_equal. apply IH. intros y Hy. apply HQ. by right.
Qed.

Lemma deduplicate_sublist l : deduplicate l `sublist_of` l.
Proof.
  induction l as [|x l IH]; cbn; [constructor|].
  apply sublist_skip. etrans; [apply sublist_filter|exact IH].
Qed.

Lemma deduplicate_NoDup_id l : NoDup l -> deduplicate l = l.
Proof.
  induction 1 as [|x l Hx Hnd IH]; cbn; [done|].
  rewrite IH. f_equal. apply filter_all. intros y Hy ->. done.
Qed.

(** X1: [set] returns a list without duplicates that holds exactly the
    strings of its argument and keeps them in the order of the
    argument. *)
Theorem set_spec (slice : list string) :
  NoDup (set slice) /\
  (forall x, x ∈ set slice <-> x ∈ slice) /\
  set slice `sublist_of` slice /\
  (length (set slice) <= length slice)%nat.
Proof.
  rewrite set_deduplicate. split; [apply NoDup_deduplicate|].
  split; [intros x; apply elem_of_deduplicate|].
  split; [apply deduplicate_sublist|].
  apply sublist_length, deduplicate_sublist.
Qed.

(** X2: [set] leaves a list as it is exactly when the list has no
    duplicates; so applying it twice is applying it once. *)
Theorem set_fixed_point (slice : list string) :
  (set slice = slice <-> NoDup slice) /\
  set (set slice) = set slice.
Proof.
  rewrite !set_deduplicate. split.
  - split.
    + intros <-. apply NoDup_deduplicate.
    + apply deduplicate_NoDup_id.
  - apply deduplicate_NoDup_id, NoDup_deduplicate.
Qed.

Lemma deduplicate_app l1 l2 :
  deduplicate (l1 ++ l2)
  = (deduplicate l1 ++ filter (fun x => x ∉ l1) (deduplicate l2))%list.
Proof.
  induction l1 as [|x l1 IH]; cbn.
  - symmetry. apply filter_all. intros y _. apply not_elem_of_nil.
  - f_equal. rewrite IH, filter_app. f_equal.
    + rewrite list_filter_filter. apply list_filter_iff.
      intros y. rewrite elem_of_cons. tauto.
Qed.

(** X3: [set] of two lists appended, as [blobCmdHashes] appends the hashes
    of the manifest to the arguments: the distinct strings of the first
    list, then those of the second that are not in the first. *)
Theorem set_app (l1 l2 : list string) :
  set (l1 ++ l2) = (set l1 ++ filter (fun x => x ∉ l1) (set l2))%list.
Proof. rewrite !set_deduplicate. apply deduplicate_app. Qed.

(** ** [validHashes] *)

Lemma validHashes_eq hashes :
  validHashes hashes
  = (filter (fun h => isHash h = true) (deduplicate hashes),
     invalid_hash_error
       <$> last (filter (fun h => isHash h = false) (deduplicate hashes))).
Proof.
  unfold validHashes. rewrite set_deduplicate, validHashes_loop_spec. cbn.
  by destruct (last _).
Qed.

Lemma filter_none (Q : string -> Prop) `{!forall x, Decision (Q x)}
    (l : list string) :
  (forall x, x ∈ l -> ~ Q x) -> filter Q l = [].
Proof.
  induction l as [|x l IH]; intros HQ; [done|].
  rewrite filter_cons_False by (apply HQ; by left).
  apply IH. intros y Hy. apply HQ. by right.
Qed.

(** X4: What [validHashes] returns holds no duplicates and only hashes, in
    the order of the argument; given back to [validHashes] it comes out
    unchanged and without an error. *)
Theorem validHashes_output (hashes : list string) :
  let valid := fst (validHashes hashes) in
  NoDup valid /\
  (forall h, h ∈ valid -> isHash h = true) /\
  valid `sublist_of` hashes /\
  validHashes valid = (valid, None).
Proof.
  cbn zeta. rewrite validHashes_eq. cbn [fst].
  set (valid := filter (fun h => isHash h = true) (deduplicate hashes)).
  assert (NoDup valid) as Hnd by apply NoDup_filter, NoDup_deduplicate.
  assert (forall h, h ∈ valid -> isHash h = true) as Hall.
  { intros h Hh. by apply list_elem_of_filter in Hh as [? _]. }
  split; [done|]. split; [done|]. split.
  - etrans; [apply sublist_filter|apply deduplicate_sublist].
  - rewrite validHashes_eq, (deduplicate_NoDup_id valid Hnd).
    rewrite (filter_all _ valid Hall).
    rewrite (filter_none (fun h => isHash h = false) valid); [done|].
    intros h Hh. rewrite (Hall h Hh). done.
Qed.

(** X5: [validHashes] returns no error exactly when every string of its
    argument is a hash; its result is then [set] of the argument. *)
Theorem validHashes_no_error (hashes : list string) :
  (snd (validHashes hashes) = None <->
   forall h, h ∈ hashes -> isHash h = true) /\
  (snd (validHashes hashes) = None ->
   fst (validHashes hashes) = set hashes).
Proof.
  rewrite validHashes_eq, set_deduplicate. cbn [fst snd].
  assert (last (filter (fun h => isHash h = false) (deduplicate hashes)) = None
          <-> forall h, h ∈ hashes -> isHash h = true) as Hiff.
  { rewrite last_None. split.
    - intros Hnil h Hh. destruct (isHash h) eqn:E; [done|].
      assert (h ∈ filter (fun h => isHash h = false) (deduplicate hashes))
        as Hin by (apply list_elem_of_filter; by rewrite elem_of_deduplicate).
      rewrite Hnil in Hin. by apply not_elem_of_nil in Hin.
    - intros Hall. apply filter_none. intros h Hh.
      rewrite elem_of_deduplicate in Hh. by rewrite (Hall h Hh). }
  split.
  - rewrite <- Hiff. by destruct (last _).
  - intros Hnone. apply filter_all. intros h Hh.
    rewrite elem_of_deduplicate in Hh. apply Hiff; [|done].
    by destruct (last _).
Qed.

(** ** [shortHash], [blobKey] and the output of [readerHash] *)

Lemma hex_digit_ascii c : is_hex_digit c = true -> byte_val c < utf8.runeSelf.
Proof.
  rewrite <- Is_ASCII_Hex_Digit_byte, Is_ASCII_Hex_Digit.
  unfold hex_rune, utf8.runeSelf. lia.
Qed.

Lemma truncateString_ascii s : forall n,
  (forall c, In c (list_ascii_of_string s) -> is_hex_digit c = true) ->
  truncateString n 0 s = substring 0 n s.
Proof.
  induction s as [|c s IH]; intros n Hs; [by destruct n|].
  destruct n as [|n]; [done|].
  cbn [truncateString substring bytes utf8.next].
  assert ((byte_val c <? utf8.runeSelf) = true) as ->.
  { apply Z.ltb_lt, hex_digit_ascii, Hs. by left. }
  cbn [Nat.pred]. f_equal. apply IH. intros c' Hc'. apply Hs. by right.
Qed.

(** X6: On a hash, [shortHash] returns what [%.7s] prints of it in the
    messages of [blobPutCmd] and [blobGetCmd]: its first 7 hex
    digits. *)
Theorem shortHash_is_printed (hash : string) :
  isHash hash = true ->
  shortHash hash = Ret (truncateString 7 0 hash) /\
  String.length (truncateString 7 0 hash) = 7%nat /\
  (forall c, In c (list_ascii_of_string (truncateString 7 0 hash)) ->
             In c (list_ascii_of_string hash)).
Proof.
  intros Hh. pose proof (shortHash_of_hash hash Hh) as Hshort.
  apply isHash_iff_bytes in Hh as [Hlen Hhex].
  rewrite (truncateString_ascii hash 7 Hhex).
  destruct (substring_split 7 hash) as (rest & Hsplit & Hl); [lia|].
  split; [done|]. split; [done|].
  intros c Hc. rewrite Hsplit.
  generalize dependent (substring 0 7 hash). intros short _ _ _ Hc.
  induction short as [|c' short IH]; [done|].
  change (String c' short ++ rest)%string with (String c' (short ++ rest))%string.
  destruct Hc as [->|Hc]; [by left|right; auto].
Qed.

Lemma shortHash_is_printed_witness :
  shortHash Sim.H1 = Ret (truncateString 7 0 Sim.H1) /\
  truncateString 7 0 Sim.H1 = "aaaaaaa".
Proof.
  destruct (shortHash_is_printed Sim.H1) as (Hshort & _).
  - vm_compute. reflexivity.
  - split; [exact Hshort|]. vm_compute. reflexivity.
Defined.

Lemma append_length s1 s2 :
  String.length (s1 ++ s2)%string
  = (String.length s1 + String.length s2)%nat.
Proof.
  induction s1 as [|c s1 IH]; [done|].
  change (String c s1 ++ s2)%string with (String c (s1 ++ s2))%string.
  cbn. by rewrite IH.
Qed.

(** X7: [blobKey] puts ["/blob/"] in front of the hash: different hashes
    have different keys, and the hash is read back from the key. *)
Theorem blobKey_spec :
  (forall h1 h2, blobKey h1 = blobKey h2 -> h1 = h2) /\
  (forall h, String.prefix "/blob/" (blobKey h) = true) /\
  (forall h, String.length (blobKey h) = (6 + String.length h)%nat) /\
  (forall h, substring 6 (String.length h) (blobKey h) = h).
Proof.
  split; [exact blobKey_inj|]. split; [|split].
  - intros h. unfold blobKey. by destruct h.
  - intros h. unfold blobKey. by rewrite append_length.
  - intros h. unfold blobKey.
    change (substring 0 (String.length h) h = h).
    induction h as [|c h IH]; [done|]. cbn. by rewrite IH.
Qed.


(** X9: [isHash] accepts the capital digits [A] to [F], which [readerHash]
    never writes: a hash with one of them is the hash of no content. *)
Theorem capital_hash_of_nothing (hash : string) (r : Reader) :
  (exists c, In c (list_ascii_of_string hash) /\
             In c (list_ascii_of_string "ABCDEF")) ->
  fst (readerHash r) <> hash.
Proof.
  intros (c & Hc & Hcap) <-.
  destruct (failure r) as [e|] eqn:Hf.
  - by rewrite (readerHash_failure r e Hf) in Hc.
  - rewrite (readerHash_ok r Hf) in Hc. cbn [fst] in Hc.
    apply sprintf_x_lower in Hc. cbn in Hcap, Hc.
    repeat (destruct Hcap as [<-|Hcap];
            [repeat (destruct Hc as [Hc|Hc]; [discriminate|]); done|]).
    done.
Qed.

Lemma capital_hash_of_nothing_witness :
  isHash (repeat_char "A" 40) = true /\
  fst (readerHash {| chunks := ["abc"]; failure := None |})
  <> repeat_char "A" 40.
Proof.
  split; [by vm_compute|].
  apply (capital_hash_of_nothing (repeat_char "A" 40)).
  exists "A"%char. split; [by left|by left].
Defined.

(** * Further properties of the blob commands *)

(** ** [putBlob] and [getBlob] *)

Section Blobs.

Context (P : Platform).

Implicit Types (w : IO P) (d : DataIndex (Env P) (File P) (ReadCloser P)).

(** X10: When the local file cannot be opened, [putBlob] returns the error
    of [os.Open] and does nothing else: the store is not called. *)
Theorem putBlob_open_fails d hash path w err e1 :
  os_Open P path (env w) = (inr err, e1) ->
  putBlob P d hash path w
  = (Ret (Some err), {| log := (log w ++ [EvOpen path])%list; env := e1 |}).
Proof.
  intros Hopen. unfold putBlob. unfold_M. by rewrite Hopen.
Qed.

(** X11: Once the file is open, [putBlob] calls [Put] of the store with the
    key of the hash, and closes the file whatever [Put] answers; when
    all goes well the file is closed twice, by the call of [Close] and
    by the deferred one. *)
Theorem putBlob_closes d hash path w f e1 :
  os_Open P path (env w) = (inl f, e1) ->
  exists closes,
    log (snd (putBlob P d hash path w))
    = (log w ++ EvOpen path :: EvStorePut (blobKey hash) :: closes)%list /\
    (closes = [EvCloseFile] \/ closes = [EvCloseFile; EvCloseFile]) /\
    (fst (putBlob P d hash path w) = Ret None ->
     closes = [EvCloseFile; EvCloseFile]) /\
    (forall err e2,
       Put (BlobStore d) (blobKey hash) f e1 = (Some err, e2) ->
       fst (putBlob P d hash path w) = Ret (Some err) /\
       closes = [EvCloseFile]).
Proof.
  intros Hopen. unfold putBlob. unfold_M. rewrite Hopen. cbn.
  destruct (Put (BlobStore d) (blobKey hash) f e1) as [[err|] e2]; cbn.
  - destruct (File_Close P f e2) as [r e3]. cbn.
    exists [EvCloseFile]. rewrite <- !app_assoc.
    split; [done|]. split; [by left|]. split; [done|].
    intros err' e2' [= -> ->]. done.
  - destruct (File_Close P f e2) as [[err|] e3]; cbn;
      destruct (File_Close P f e3) as [r e4]; cbn;
      exists [EvCloseFile; EvCloseFile]; rewrite <- !app_assoc;
      (split; [done|]); (split; [by right|]); (split; [done|]);
      intros ? ? [=].
Qed.

(** X12: When the store has no blob for the hash, [getBlob] returns the
    error of [Get] and does nothing else: no local file is created. *)
Theorem getBlob_missing_blob d hash path w err e1 :
  Get (BlobStore d) (blobKey hash) (env w) = (inr err, e1) ->
  getBlob P d hash path w
  = (Ret (Some err),
     {| log := (log w ++ [EvStoreGet (blobKey hash)])%list; env := e1 |}).
Proof.
  intros Hget. unfold getBlob. unfold_M. by rewrite Hget.
Qed.

(** X13: Once the store has answered with a reader, [getBlob] creates the
    local file before anything is copied, and closes the reader last,
    whatever fails; a file that was created is closed as well. *)
Theorem getBlob_closes d hash path w r e1 :
  Get (BlobStore d) (blobKey hash) (env w) = (inl r, e1) ->
  exists rest,
    log (snd (getBlob P d hash path w))
    = (log w ++ EvStoreGet (blobKey hash) :: EvCreate path :: rest)%list /\
    last rest = Some EvCloseReader /\
    (forall err e2,
       os_Create P path e1 = (inr err, e2) ->
       fst (getBlob P d hash path w) = Ret (Some err) /\
       rest = [EvCloseReader]) /\
    (forall f e2,
       os_Create P path e1 = (inl f, e2) ->
       exists rest', rest = EvIoCopy :: rest' /\ In EvCloseFile rest').
Proof.
  intros Hget. unfold getBlob. unfold_M. rewrite Hget. cbn.
  destruct (os_Create P path e1) as [[f|err] e2]; cbn.
  - destruct (io_Copy P f r e2) as [[err|] e3]; cbn;
      [|destruct (File_Close P f e3) as [[err|] e4]; cbn;
        [|destruct (ReadCloser_Close P r e4) as [[err|] e5]; cbn]];
      repeat match goal with
             | |- context [File_Close P f ?e] =>
               destruct (File_Close P f e) as [? ?]; cbn
             | |- context [ReadCloser_Close P r ?e] =>
               destruct (ReadCloser_Close P r e) as [? ?]; cbn
             end;
      rewrite <- !app_assoc; cbn;
      (eexists; split; [reflexivity|]);
      (split; [reflexivity|]);
      (split; [intros ? ? [=]|]);
      intros ? ? _; eexists; (split; [reflexivity|]); cbn; tauto.
  - destruct (ReadCloser_Close P r e2) as [? ?]. cbn.
    rewrite <- !app_assoc. cbn.
    exists [EvCloseReader]. split; [done|]. split; [done|].
    split; [by intros ? ? [= -> ->]|]. intros ? ? [=].
Qed.

(** ** The functions of [blobPutCmd] and [blobGetCmd] *)

(** X14: When the download fails, [blobGetCmd]'s function returns the error
    of [getBlob] and copies nothing to the other paths. *)
Theorem blobGet_f_fetch_fails d hash paths0 others w err w' :
  getBlob P d hash paths0
    {| log := (log w ++ [EvOut (get_message hash paths0)])%list;
       env := env w |}
  = (Ret (Some err), w') ->
  blobGet_f P d hash (paths0 :: others) w = (Ret (Some err), w') /\
  exists evs,
    log w' = (log w ++ evs)%list /\
    List.filter is_copy_event evs = [].
Proof.
  intros Hget. split.
  - unfold blobGet_f. unfold_M. unfold get_message in Hget.
    by rewrite Hget.
  - match type of Hget with
    | getBlob P d hash paths0 ?w1 = _ =>
      destruct (getBlob_events P d hash paths0 w1)
        as (after & Hlog & _ & Hcp & _)
    end.
    rewrite Hget in Hlog. cbn [snd log] in Hlog.
    eexists. rewrite Hlog, <- app_assoc. split; [reflexivity|].
    cbn. exact Hcp.
Qed.

(** X15: [blobPutCmd]'s function uploads from the first path only: the other
    paths of the hash change nothing, and no other file is opened. *)
Theorem blobPut_f_first_path d hash paths0 others w :
  blobPut_f P d hash (paths0 :: others) w = blobPut_f P d hash [paths0] w /\
  exists evs,
    log (snd (blobPut_f P d hash (paths0 :: others) w))
    = (log w ++ EvOut (put_message hash paths0) :: EvOpen paths0 :: evs)%list /\
    (forall path, ~ In (EvOpen path) evs) /\
    (forall src dst, ~ In (EvCopyFile src dst) evs).
Proof.
  split; [done|].
  unfold blobPut_f, putBlob, put_message. unfold_M. cbn.
  repeat case_match; simplify_eq/=; rewrite <- ?app_assoc; cbn;
    (eexists; split; [reflexivity|]); cbn; split; intros; intuition congruence.
Qed.

End Blobs.

(** ** The batch and its list of hashes *)

Section Batches.

Context (P : Platform).

Implicit Types (f : blobCmdFunc P) (s : Run P) (w : IO P).
Implicit Types (dn : gmap string bool) (hashes : list string).

Lemma not_done_insert dn h (l : list string) :
  dn !! h = None ->
  filter (fun x => dn !! x = None /\ x <> h) l
  = filter (fun x => <[h := true]> dn !! x = None) l.
Proof.
  intros Hh. apply list_filter_iff. intros x.
  rewrite lookup_insert_None. split; intros [? ?]; split; congruence.
Qed.

Lemma not_done_skip dn h b (l : list string) :
  dn !! h = Some b ->
  filter (fun x => dn !! x = None /\ x <> h) l
  = filter (fun x => dn !! x = None) l.
Proof.
  intros Hh. apply list_filter_iff. intros x. split; [tauto|].
  intros Hx. split; [done|]. intros ->. congruence.
Qed.

(** The hashes [f] is called for are, in this order, the first of the
    distinct hashes not yet in [done]; all of them when the loop ends
    without an error. *)
Lemma loop_order f dataIndex hashes : forall dn s,
  exists new,
    calls (snd (blobCmdRunFunc_loop P f dataIndex dn hashes s))
    = (calls s ++ new)%list /\
    new.*1 `prefix_of`
      filter (fun x => dn !! x = None) (deduplicate hashes) /\
    (fst (blobCmdRunFunc_loop P f dataIndex dn hashes s) = Ret None ->
     new.*1 = filter (fun x => dn !! x = None) (deduplicate hashes)).
Proof.
  induction hashes as [|h hashes IH]; intros dn s.
  { exists []. cbn. rewrite app_nil_r. split; [done|]. split; [|done].
    apply prefix_nil. }
  cbn [blobCmdRunFunc_loop deduplicate].
  rewrite filter_cons, list_filter_filter.
  destruct (dn !! h) as [b|] eqn:Hdn.
  { rewrite decide_False by done. rewrite (not_done_skip dn h b) by done.
    apply IH. }
  rewrite decide_True by done. rewrite (not_done_insert dn h) by done.
  destruct (isHash h); cbn [negb]; cycle 1.
  { exists []. cbn. rewrite app_nil_r. split; [done|]. split; [|done].
    apply prefix_nil. }
  unfold_M.
  destruct (blobPaths P h (world s)) as [[[paths|err]|] w1];
    cbn [world calls]; cycle 1.
  { exists []. cbn. rewrite app_nil_r. split; [done|]. split; [|done].
    apply prefix_nil. }
  { exists []. cbn. rewrite app_nil_r. split; [done|]. split; [|done].
    apply prefix_nil. }
  destruct (f dataIndex h paths w1) as [[[e|]|] w2]; cbn [fst snd calls].
  - exists [(h, paths)]. split; [done|]. split; [|done].
    apply prefix_cons, prefix_nil.
  - match goal with
    | |- context [blobCmdRunFunc_loop P f dataIndex ?dn' hashes ?s'] =>
      destruct (IH dn' s') as (new & Hc & Hpre & Hok)
    end.
    cbn [calls] in Hc.
    exists ((h, paths) :: new). rewrite Hc, <- app_assoc.
    split; [done|]. split.
    + by apply prefix_cons.
    + intros Hr. cbn. f_equal. by apply Hok.
  - exists [(h, paths)]. split; [done|]. split; [|done].
    apply prefix_cons, prefix_nil.
Qed.

Lemma run_calls_prefix f hashes (e : Env P) :
  let out := blobCmdRunFunc P hashes f (start P e) in
  (calls (snd out)).*1 `prefix_of` set hashes /\
  (fst out = Ret None -> (calls (snd out)).*1 = set hashes).
Proof.
  cbn zeta. rewrite set_deduplicate.
  destruct hashes as [|h0 hashes0] eqn:Hhs.
  { split; [apply prefix_nil|done]. }
  rewrite <- Hhs. rewrite blobCmdRunFunc_nonempty by (by rewrite Hhs).
  destruct (mainDataIndex P (world (start P e))) as [[[d|err]|] w0].
  - destruct (loop_order f d hashes ∅ {| calls := calls (start P e); world := w0 |})
      as (new & Hc & Hpre & Hok).
    rewrite Hc. cbn [start calls app].
    rewrite (filter_all (fun x => (∅ : gmap string bool) !! x = None)) in Hpre, Hok
      by (intros; apply lookup_empty).
    done.
  - split; [apply prefix_nil|done].
  - split; [apply prefix_nil|done].
Qed.

(** X16: In a batch [f] is called for the distinct hashes in the order in
    which they come first, up to the hash at which the batch ends; a
    batch that returns [nil] has called [f] for every one of them. *)
Theorem run_order f hashes (e : Env P) :
  let out := blobCmdRunFunc P hashes f (start P e) in
  (calls (snd out)).*1 `prefix_of` set hashes /\
  (fst out = Ret None -> (calls (snd out)).*1 = set hashes).
Proof.
  cbn zeta. split.
  - apply run_calls_prefix.
  - intros Hok. by apply run_calls_prefix.
Qed.

(** The loop skips a hash that is in [done]: taking its occurrences out
    of the list changes nothing. *)
Lemma loop_filter_done f dataIndex h hashes : forall dn s,
  is_Some (dn !! h) ->
  blobCmdRunFunc_loop P f dataIndex dn (filter (fun x => x <> h) hashes) s
  = blobCmdRunFunc_loop P f dataIndex dn hashes s.
Proof.
  induction hashes as [|x hashes IH]; intros dn s Hh; [done|].
  rewrite filter_cons. destruct (decide (x <> h)) as [Hne|Heq].
  - cbn [blobCmdRunFunc_loop].
    destruct (dn !! x) as [b|] eqn:Hx; [by apply IH|].
    destruct (negb (isHash x)); [done|]. unfold_M.
    destruct (blobPaths P x (world s)) as [[[paths|err]|] w1]; try done.
    cbn [world calls].
    destruct (f dataIndex x paths w1) as [[[e|]|] w2]; try done.
    apply IH. rewrite lookup_insert_is_Some. by right.
  - apply dec_stable in Heq as ->. cbn [blobCmdRunFunc_loop].
    destruct Hh as [b Hb]. rewrite Hb. apply IH. eauto.
Qed.

Lemma loop_deduplicate f dataIndex hashes : forall dn s,
  blobCmdRunFunc_loop P f dataIndex dn (deduplicate hashes) s
  = blobCmdRunFunc_loop P f dataIndex dn hashes s.
Proof.
  induction hashes as [|h hashes IH]; intros dn s; [done|].
  cbn [deduplicate blobCmdRunFunc_loop].
  destruct (dn !! h) as [b|] eqn:Hh.
  - rewrite loop_filter_done by eauto. apply IH.
  - destruct (negb (isHash h)); [done|]. unfold_M.
    destruct (blobPaths P h (world s)) as [[[paths|err]|] w1]; try done.
    cbn [world calls].
    destruct (f dataIndex h paths w1) as [[[e|]|] w2]; try done.
    rewrite loop_filter_done by (rewrite lookup_insert_eq; eauto).
    apply IH.
Qed.

(** X17: A batch run on [set hashes] does what it does on [hashes]: the same
    result, the same calls of [f], the same state. *)
Theorem run_set f hashes s :
  blobCmdRunFunc P (set hashes) f s = blobCmdRunFunc P hashes f s.
Proof.
  rewrite set_deduplicate. destruct hashes as [|h hashes]; [done|].
  rewrite !blobCmdRunFunc_nonempty by done.
  destruct (mainDataIndex P (world s)) as [[[d|err]|] w0]; try done.
  apply (loop_deduplicate f d (h :: hashes)).
Qed.

(** X18: A batch returns [nil] only if it was given a hash, every string
    given is a hash, and [f] has been called for each of them with the
    paths of the manifest. *)
Theorem run_ok_all_done f hashes (e : Env P) :
  fst (blobCmdRunFunc P hashes f (start P e)) = Ret None ->
  hashes <> [] /\
  forall h, h ∈ hashes ->
    isHash h = true /\
    exists paths,
      (h, paths) ∈ calls (snd (blobCmdRunFunc P hashes f (start P e))) /\
      exists w w', blobPaths P h w = (Ret (inl paths), w').
Proof.
  intros Hok. split; [by intros ->|].
  intros h Hh.
  destruct (run_calls_prefix f hashes e) as [_ Hall]. specialize (Hall Hok).
  assert (h ∈ (calls (snd (blobCmdRunFunc P hashes f (start P e)))).*1) as Hin.
  { rewrite Hall, set_deduplicate. by apply elem_of_deduplicate. }
  destruct (run_trace P f h hashes (start P e)) as (new & Hc & _ & Hnew & _).
  rewrite Hc in Hin |- *. cbn [start calls app] in *.
  destruct (Hnew h Hin) as (_ & Hvalid & _).
  split; [done|].
  apply list_elem_of_fmap in Hin as ([h' paths] & -> & Hin). cbn.
  exists paths. split; [done|].
  assert (forall dataIndex hs dn s,
            (h', paths) ∈ calls (snd (blobCmdRunFunc_loop P f dataIndex dn hs s)) ->
            (h', paths) ∈ calls s \/
            exists w w', blobPaths P h' w = (Ret (inl paths), w')) as Hloop.
  { intros dataIndex hs. induction hs as [|x hs IH]; intros dn s Hcall;
      [by left|].
    cbn [blobCmdRunFunc_loop] in Hcall.
    destruct (dn !! x); [by apply (IH dn s)|].
    destruct (negb (isHash x)); [by left|]. unfold_M.
    destruct (blobPaths P x (world s)) as [[[ps|err]|] w1] eqn:Hbp;
      cbn [snd calls world] in Hcall; try by left.
    assert ((h', paths) ∈ (calls s ++ [(x, ps)])%list ->
            (h', paths) ∈ calls s \/
            exists w w', blobPaths P h' w = (Ret (inl paths), w')) as Hstep.
    { rewrite elem_of_app, list_elem_of_singleton.
      intros [?|[= -> ->]]; [by left|right; eauto]. }
    destruct (f dataIndex x ps w1) as [[[err|]|] w2];
      cbn [snd calls] in Hcall; try by apply Hstep.
    apply IH in Hcall as [Hcall|?]; [|by right]. by apply Hstep. }
  destruct hashes as [|h0 hashes0] eqn:Hhs; [by apply not_elem_of_nil in Hh|].
  rewrite <- Hhs in *.
  rewrite blobCmdRunFunc_nonempty in Hc by (by rewrite Hhs).
  destruct (mainDataIndex P (world (start P e))) as [[[d|err]|] w0];
    cbn [snd calls start app] in Hc;
    [|subst new; by apply not_elem_of_nil in Hin..].
  assert ((h', paths) ∈ calls (snd (blobCmdRunFunc_loop P f d ∅ hashes
            {| calls := []; world := w0 |}))) as Hcall by (by rewrite Hc).
  apply Hloop in Hcall as [Hcall|?]; [|done].
  by apply not_elem_of_nil in Hcall.
Qed.

(** ** Panics *)

Lemma blobPut_f_no_panic d hash paths0 others w :
  fst (blobPut_f P d hash (paths0 :: others) w) <> Panic.
Proof.
  unfold blobPut_f. unfold_M.
  match goal with
  | |- context [putBlob P d hash paths0 ?w1] =>
    destruct (putBlob_events P d hash paths0 w1) as (_ & _ & _ & _ & Hnp);
    by destruct (putBlob P d hash paths0 w1) as [[?|] ?]
  end.
Qed.

Lemma blobGet_f_no_panic d hash paths0 others w :
  fst (blobGet_f P d hash (paths0 :: others) w) <> Panic.
Proof.
  destruct (blobGet_f_events P d hash paths0 others w)
    as (? & ? & ? & _ & _ & _ & _ & _ & _ & _ & Hnp).
  exact Hnp.
Qed.

Lemma loop_no_panic f dataIndex hashes : forall dn s,
  manifest_finds_paths P ->
  (forall d hash paths0 others w,
     fst (f d hash (paths0 :: others) w) <> Panic) ->
  fst (blobCmdRunFunc_loop P f dataIndex dn hashes s) <> Panic.
Proof.
  induction hashes as [|h hashes IH]; intros dn s Hmf Hf; [done|].
  cbn [blobCmdRunFunc_loop].
  destruct (dn !! h); [by apply IH|].
  destruct (negb (isHash h)); [done|]. unfold_M.
  rewrite blobPaths_spec.
  destruct (NewManifest P "" (env (world s))) as [mf e1].
  pose proof (Hmf mf h e1) as Hne.
  destruct (PathsForHash P mf h e1) as [[paths|err] e2]; [|done].
  cbn [fst world calls] in *. destruct paths as [|paths0 others]; [done|].
  pose proof (Hf dataIndex h paths0 others
                {| log := (log (world s) ++ [EvNewManifest; EvPathsForHash h])%list;
                   env := e2 |}) as Hnp.
  destruct (f dataIndex h (paths0 :: others) _) as [[[err|]|] w2]; try done.
  by apply IH.
Qed.

(** X19: With a manifest that never answers with an empty list of paths,
    [blobPutCmd] and [blobGetCmd] do not panic: they return [nil] or an
    error. *)
Theorem commands_no_panic all args (e : Env P) :
  manifest_finds_paths P ->
  fst (blobPutCmd P all args (start P e)) <> Panic /\
  fst (blobGetCmd P all args (start P e)) <> Panic.
Proof.
  intros Hmf.
  assert (forall f hashes s,
            (forall d hash paths0 others w,
               fst (f d hash (paths0 :: others) w) <> Panic) ->
            fst (blobCmdRunFunc P hashes f s) <> Panic) as Hrun.
  { intros f hashes s Hf. destruct hashes as [|h hashes]; [done|].
    rewrite blobCmdRunFunc_nonempty by done.
    destruct (mainDataIndex_log P (world s)) as (r & w0 & -> & _).
    destruct r as [d|err]; [|done]. by apply loop_no_panic. }
  assert (forall f,
            (forall d hash paths0 others w,
               fst (f d hash (paths0 :: others) w) <> Panic) ->
            fst ((hashes ← lift P (blobCmdHashes P all args);
                  blobCmdRunFunc P hashes f) (start P e)) <> Panic) as Hcmd.
  { intros f Hf. unfold blobCmdHashes. destruct all; unfold_M; cbn.
    - destruct (NewManifest P "" e) as [mf e1]. cbn.
      destruct (AllHashes P mf e1) as [hs e2]. cbn. by apply Hrun.
    - by apply Hrun. }
  split; apply Hcmd.
  - apply blobPut_f_no_panic.
  - apply blobGet_f_no_panic.
Qed.

(** X20: A manifest that answers a hash with an empty list of paths and no
    error makes the batch panic at [paths[0]], in [blobPutCmd] as in
    [blobGetCmd], before anything is printed or done to the store. *)
Theorem empty_paths_panic h hashes s dataIndex w0 w1 :
  isHash h = true ->
  mainDataIndex P (world s) = (Ret (inl dataIndex), w0) ->
  blobPaths P h w0 = (Ret (inl []), w1) ->
  blobCmdRunFunc P (h :: hashes) (blobPut_f P) s
  = (Panic, {| calls := (calls s ++ [(h, [])])%list; world := w1 |}) /\
  blobCmdRunFunc P (h :: hashes) (blobGet_f P) s
  = (Panic, {| calls := (calls s ++ [(h, [])])%list; world := w1 |}).
Proof.
  intros Hh Hmain Hbp.
  rewrite !blobCmdRunFunc_nonempty by done. rewrite Hmain.
  cbn [blobCmdRunFunc_loop]. rewrite lookup_empty, Hh. cbn [negb].
  unfold_M. cbn [world calls]. rewrite Hbp. done.
Qed.

(** X21: [--all] on a manifest without hashes and without arguments gives the
    batch no hash: the command asks the manifest and returns the error
    of the empty batch, without a call of [mainDataIndex]. *)
Theorem all_on_empty_manifest (e : Env P) mf e1 e2 :
  NewManifest P "" e = (mf, e1) ->
  AllHashes P mf e1 = ([], e2) ->
  blobPutCmd P true [] (start P e)
  = (Ret (Some "at least one <hash> argument required."),
     {| calls := [];
        world := {| log := [EvNewManifest; EvAllHashes]; env := e2 |} |}) /\
  blobGetCmd P true [] (start P e)
  = (Ret (Some "at least one <hash> argument required."),
     {| calls := [];
        world := {| log := [EvNewManifest; EvAllHashes]; env := e2 |} |}).
Proof.
  intros Hmf Hall. unfold blobPutCmd, blobGetCmd, blobCmdHashes.
  unfold_M. cbn. rewrite Hmf. cbn. rewrite Hall. done.
Qed.

End Batches.

(** ** Runs on the platform [Sim], continued *)

Lemma putBlob_open_fails_witness :
  fst (putBlob Sim.platform Sim_index Sim.H1 "fileA" (Sim_io Sim.remote))
  = Ret (Some "open fileA: no such file or directory") /\
  log (snd (putBlob Sim.platform Sim_index Sim.H1 "fileA"
              (Sim_io Sim.remote)))
  = [EvOpen "fileA"].
Proof.
  rewrite (putBlob_open_fails Sim.platform Sim_index Sim.H1 "fileA"
             (Sim_io Sim.remote)
             "open fileA: no such file or directory" Sim.remote).
  - split; reflexivity.
  - vm_compute. reflexivity.
Defined.

Lemma putBlob_closes_witness :
  exists closes,
    log (snd (putBlob Sim.platform Sim_index Sim.H1 "fileA"
                (Sim_io Sim.local)))
    = ([] ++ EvOpen "fileA" :: EvStorePut (blobKey Sim.H1) :: closes)%list /\
    closes = [EvCloseFile; EvCloseFile].
Proof.
  destruct (putBlob_closes Sim.platform Sim_index Sim.H1 "fileA"
              (Sim_io Sim.local) "fileA" Sim.local)
    as (closes & Hlog & _ & Hok & _).
  - vm_compute. reflexivity.
  - exists closes. split; [exact Hlog|]. apply Hok. vm_compute. reflexivity.
Defined.

Lemma getBlob_missing_blob_witness :
  fst (getBlob Sim.platform Sim_index Sim.H1 "fileA" (Sim_io Sim.local))
  = Ret (Some "404 Not Found") /\
  Sim.files (env (snd (getBlob Sim.platform Sim_index Sim.H1 "fileA"
                         (Sim_io Sim.local))))
  = Sim.files Sim.local.
Proof.
  rewrite (getBlob_missing_blob Sim.platform Sim_index Sim.H1 "fileA"
             (Sim_io Sim.local) "404 Not Found" Sim.local).
  - split; reflexivity.
  - vm_compute. reflexivity.
Defined.

Lemma getBlob_closes_witness :
  exists rest,
    log (snd (getBlob Sim.platform Sim_index Sim.H1 "fileA"
                (Sim_io Sim.remote)))
    = ([] ++ EvStoreGet (blobKey Sim.H1) :: EvCreate "fileA" :: rest)%list /\
    last rest = Some EvCloseReader /\
    exists rest', rest = EvIoCopy :: rest' /\ In EvCloseFile rest'.
Proof.
  destruct (getBlob_closes Sim.platform Sim_index Sim.H1 "fileA"
              (Sim_io Sim.remote) "one" Sim.remote)
    as (rest & Hlog & Hlast & _ & Hfile).
  - vm_compute. reflexivity.
  - exists rest. split; [exact Hlog|]. split; [exact Hlast|].
    eapply (Hfile "fileA"). vm_compute. reflexivity.
Defined.

Lemma blobGet_f_fetch_fails_witness :
  fst (blobGet_f Sim.platform Sim_index Sim.H1 ["fileA"; "fileB"]
         (Sim_io Sim.local))
  = Ret (Some "404 Not Found").
Proof.
  edestruct (blobGet_f_fetch_fails Sim.platform Sim_index Sim.H1 "fileA"
               ["fileB"] (Sim_io Sim.local)) as [Hres _].
  - vm_compute. reflexivity.
  - rewrite Hres. reflexivity.
Defined.

Lemma run_ok_all_done_witness :
  [Sim.H1; Sim.H2; Sim.H1] <> [] /\
  forall h, h ∈ [Sim.H1; Sim.H2; Sim.H1] ->
    isHash h = true /\
    exists paths,
      (h, paths) ∈ calls (snd (blobCmdRunFunc Sim.platform
                                 [Sim.H1; Sim.H2; Sim.H1]
                                 (blobGet_f Sim.platform)
                                 (start Sim.platform Sim.remote))) /\
      exists w w', blobPaths Sim.platform h w = (Ret (inl paths), w').
Proof.
  apply (run_ok_all_done Sim.platform). vm_compute. reflexivity.
Defined.

Lemma Sim_manifest_finds_paths : manifest_finds_paths Sim.platform.
Proof.
  intros mf hash e. cbn. unfold Sim.pathsForHash.
  destruct (filter _ _) as [|entry found]; cbn; discriminate.
Qed.

Lemma commands_no_panic_witness :
  fst (blobPutCmd Sim.platform true ["abc"] (start Sim.platform Sim.local))
  <> Panic /\
  fst (blobGetCmd Sim.platform true ["abc"] (start Sim.platform Sim.local))
  <> Panic.
Proof.
  apply (commands_no_panic Sim.platform). exact Sim_manifest_finds_paths.
Defined.

Lemma empty_paths_panic_witness :
  fst (blobCmdRunFunc Sim_no_paths [Sim.H1; Sim.H2] (blobPut_f Sim_no_paths)
         (start Sim_no_paths Sim.local)) = Panic /\
  fst (blobCmdRunFunc Sim_no_paths [Sim.H1; Sim.H2] (blobGet_f Sim_no_paths)
         (start Sim_no_paths Sim.local)) = Panic.
Proof.
  edestruct (empty_paths_panic Sim_no_paths Sim.H1 [Sim.H2]
               (start Sim_no_paths Sim.local)) as [Hput Hget].
  - vm_compute. reflexivity.
  - vm_compute. reflexivity.
  - vm_compute. reflexivity.
  - rewrite Hput, Hget. split; reflexivity.
Defined.

Lemma all_on_empty_manifest_witness :
  fst (blobPutCmd Sim_no_paths true [] (start Sim_no_paths Sim.local))
  = Ret (Some "at least one <hash> argument required.").
Proof.
  edestruct (all_on_empty_manifest Sim_no_paths Sim.local) as [Hput _].
  - vm_compute. reflexivity.
  - vm_compute. reflexivity.
  - rewrite Hput. reflexivity.
Defined.
